(** * Post repository of the blog (lib/api.ts): a shallow embedding

    The loader reads markdown files with front matter from the [_posts]
    directory, turns each into a post record and returns the collection
    sorted by date, newest first.  This file embeds the functions of
    [lib/api.ts] together with the ECMAScript built-ins they call
    ([String.prototype.replace] on [/\.md$/], [Date.prototype.toISOString],
    [Array.prototype.sort] as the V8 engine of Node.js implements it), and
    proves the properties the specification states about them.

    Strings are Rocq strings, a [Date] object is represented by its time
    value (milliseconds since the epoch, a [Z]), promises that reject and
    calls that throw are results in an error monad, the read-only file
    system is a finite map from paths to nodes.  The imported packages
    ([path], [gray-matter], [remark] with [remark-html]) are parameters
    gathered in the class [Imports]. *)

From Stdlib Require Import ZArith Lia Ascii String Sorted Permutation.
From stdpp Require Import base option list strings gmap.

Open Scope Z_scope.

(** ** Completions: values or thrown exceptions *)

Module Js.

(** The exceptions that the calls of [lib/api.ts] can raise. *)
Inductive Exception : Type :=
  | ENOENT          (* fs: no such file or directory *)
  | EISDIR          (* fs: read of a directory *)
  | ENOTDIR         (* fs: listing of something that is not a directory *)
  | TypeError       (* call of a method that the receiver does not have *)
  | RangeError      (* toISOString on an invalid Date *)
  | YAMLException   (* gray-matter: front matter that is not valid YAML *)
  | RenderError.    (* a failure inside the markdown pipeline *)

(** The outcome of a call, and of an awaited promise. *)
Inductive Result (A : Type) : Type :=
  | Ok (a : A)
  | Throw (e : Exception).

Arguments Ok {A} a.
Arguments Throw {A} e.

#[export] Instance Exception_eq_dec : EqDecision Exception.
Proof. solve_decision. Defined.

#[export] Instance Result_ret : MRet Result := @Ok.

#[export] Instance Result_bind : MBind Result :=
  fun A B (f : A -> Result B) (r : Result A) =>
    match r with
    | Ok a => f a
    | Throw e => Throw e
    end.

Definition is_Ok {A} (r : Result A) : bool :=
  match r with Ok _ => true | Throw _ => false end.

(** What a property read on parsed YAML front matter can yield.  The YAML
    loader of [gray-matter] builds no functions, so of all these only a
    [Date] answers [toISOString].  Front matter in another language
    ([---js], which [gray-matter] evaluates as code) can yield any object,
    also one with a [toISOString] of its own; such values are not of this
    type, and the embedding says nothing about files that use them. *)
Inductive Value : Type :=
  | Undefined                       (* the property is absent *)
  | Null
  | Boolean (b : bool)
  | Number (n : Z)                  (* a YAML integer *)
  | Str (s : string)
  | DateObj (tv : option Z)         (* time value; [None] is an invalid Date *)
  | Object.                         (* a YAML sequence or mapping *)

End Js.

Export Js.

(** ** String.prototype.replace with the pattern [/\.md$/] *)

Module JsString.

(** [s.replace(/\.md$/, '')]: the matcher tries every start index from the
    left; the pattern matches at an index when what remains of the subject
    is exactly [".md"] (the [$] is not multiline), and the match is then
    replaced by the empty string.  Without a match the subject is returned
    unchanged. *)
Fixpoint replace_md_at_end (s : string) : string :=
  match s with
  | EmptyString => EmptyString
  | String c rest =>
      if String.eqb s ".md" then EmptyString
      else String c (replace_md_at_end rest)
  end.

(** [s.endsWith(suffix)] *)
Fixpoint endsWith (s suffix : string) : bool :=
  String.eqb s suffix ||
  match s with
  | EmptyString => false
  | String _ rest => endsWith rest suffix
  end.

(** [s.substring(0, n)] for [n] within the usual range: the first [n]
    characters, or the whole string when it is shorter. *)
Definition substring_from_0 (n : nat) (s : string) : string :=
  String.substring 0 n s.

End JsString.

(** ** Date.prototype.toISOString (ECMA-262, 21.4) *)

Module JsDate.

Definition msPerDay : Z := 86400000.
Definition msPerHour : Z := 3600000.
Definition msPerMinute : Z := 60000.
Definition msPerSecond : Z := 1000.

Definition Day (t : Z) : Z := t / msPerDay.
Definition TimeWithinDay (t : Z) : Z := t mod msPerDay.

Definition DaysInYear (y : Z) : Z :=
  if negb (y mod 4 =? 0) then 365
  else if negb (y mod 100 =? 0) then 366
  else if negb (y mod 400 =? 0) then 365
  else 366.

Definition DayFromYear (y : Z) : Z :=
  365 * (y - 1970) + (y - 1969) / 4 - (y - 1901) / 100 + (y - 1601) / 400.

Definition TimeFromYear (y : Z) : Z := msPerDay * DayFromYear y.

(** [YearFromTime t] is the largest [y] with [TimeFromYear y <= t].  It is
    computed by counting whole 400-, 100-, 4- and 1-year periods from
    1 January 2001 (day 11323); [YearFromTime_spec] below shows that the
    result is the year that ECMA-262 defines. *)
Definition YearFromTime (t : Z) : Z :=
  let d := Day t - 11323 in
  let n400 := d / 146097 in
  let r400 := d mod 146097 in
  let n100 := Z.min (r400 / 36524) 3 in
  let r100 := r400 - 36524 * n100 in
  let n4 := r100 / 1461 in
  let r4 := r100 mod 1461 in
  let n1 := Z.min (r4 / 365) 3 in
  2001 + 400 * n400 + 100 * n100 + 4 * n4 + n1.

Definition DayWithinYear (t : Z) : Z := Day t - DayFromYear (YearFromTime t).

Definition InLeapYear (t : Z) : Z :=
  if DaysInYear (YearFromTime t) =? 366 then 1 else 0.

Definition MonthFromTime (t : Z) : Z :=
  let d := DayWithinYear t in
  let leap := InLeapYear t in
  if d <? 31 then 0
  else if d <? 59 + leap then 1
  else if d <? 90 + leap then 2
  else if d <? 120 + leap then 3
  else if d <? 151 + leap then 4
  else if d <? 181 + leap then 5
  else if d <? 212 + leap then 6
  else if d <? 243 + leap then 7
  else if d <? 273 + leap then 8
  else if d <? 304 + leap then 9
  else if d <? 334 + leap then 10
  else 11.

Definition DateFromTime (t : Z) : Z :=
  let d := DayWithinYear t in
  let leap := InLeapYear t in
  match MonthFromTime t with
  | 0 => d + 1
  | 1 => d - 30
  | 2 => d - 58 - leap
  | 3 => d - 89 - leap
  | 4 => d - 119 - leap
  | 5 => d - 150 - leap
  | 6 => d - 180 - leap
  | 7 => d - 211 - leap
  | 8 => d - 242 - leap
  | 9 => d - 272 - leap
  | 10 => d - 303 - leap
  | _ => d - 333 - leap
  end.

Definition HourFromTime (t : Z) : Z := (t / msPerHour) mod 24.
Definition MinFromTime (t : Z) : Z := (t / msPerMinute) mod 60.
Definition SecFromTime (t : Z) : Z := (t / msPerSecond) mod 60.
Definition msFromTime (t : Z) : Z := t mod msPerSecond.

(** One decimal digit. *)
Definition digit (n : Z) : ascii :=
  ascii_of_nat (48 + Z.to_nat (n mod 10)).

(** The [width] low decimal digits of [n], most significant first: the
    fixed-width fields of the date-time string format. *)
Fixpoint digits (width : nat) (n : Z) : string :=
  match width with
  | O => EmptyString
  | S w => digits w (n / 10) +:+ String (digit n) EmptyString
  end.

(** The year field: four digits from 0000 to 9999, otherwise the expanded
    form, a sign followed by six digits. *)
Definition isoYear (y : Z) : string :=
  if (0 <=? y) && (y <=? 9999) then digits 4 y
  else if y <? 0 then "-" +:+ digits 6 (- y)
  else "+" +:+ digits 6 y.

(** [toISOString] on a finite time value: [YYYY-MM-DDTHH:mm:ss.sssZ]. *)
Definition isoString (t : Z) : string :=
  isoYear (YearFromTime t) +:+ "-" +:+ digits 2 (MonthFromTime t + 1) +:+ "-"
  +:+ digits 2 (DateFromTime t) +:+ "T" +:+ digits 2 (HourFromTime t) +:+ ":"
  +:+ digits 2 (MinFromTime t) +:+ ":" +:+ digits 2 (SecFromTime t) +:+ "."
  +:+ digits 3 (msFromTime t) +:+ "Z".

(** [v.toISOString()] for a receiver out of YAML front matter: a
    [TypeError] when the receiver is not a Date (no such method, or no
    properties at all), a [RangeError] when the Date is invalid. *)
Definition toISOString (v : Value) : Result string :=
  match v with
  | DateObj (Some t) => Ok (isoString t)
  | DateObj None => Throw RangeError
  | _ => Throw TypeError
  end.

(** [MakeDay(year, month, date)] for integral arguments. *)
Definition MakeDay (year month date : Z) : Z :=
  let ym := year + month / 12 in
  let mn := month mod 12 in
  let leap := if DaysInYear ym =? 366 then 1 else 0 in
  let first :=
    match mn with
    | 0 => 0
    | 1 => 31
    | 2 => 59 + leap
    | 3 => 90 + leap
    | 4 => 120 + leap
    | 5 => 151 + leap
    | 6 => 181 + leap
    | 7 => 212 + leap
    | 8 => 243 + leap
    | 9 => 273 + leap
    | 10 => 304 + leap
    | _ => 334 + leap
    end in
  DayFromYear ym + first + date - 1.

(** The number of days of a month, January being month 0. *)
Definition DaysInMonth (year month : Z) : Z :=
  match month with
  | 1 => if DaysInYear year =? 366 then 29 else 28
  | 3 | 5 | 8 | 10 => 30
  | _ => 31
  end.

(** [Date.UTC(year, month, date)]: years 0 to 99 stand for 1900 to 1999. *)
Definition UTC (year month date : Z) : Z :=
  let yr := if (0 <=? year) && (year <=? 99) then 1900 + year else year in
  MakeDay yr month date * msPerDay.

(** The shape [dddd-dd-dd] of a year-month-day string. *)
Definition isDigit (c : ascii) : bool :=
  let n := nat_of_ascii c in (48 <=? n)%nat && (n <=? 57)%nat.

Definition isYMD (s : string) : bool :=
  match list_ascii_of_string s with
  | [y1; y2; y3; y4; d1; m1; m2; d2; a1; a2] =>
      isDigit y1 && isDigit y2 && isDigit y3 && isDigit y4
      && Ascii.eqb d1 "-" && isDigit m1 && isDigit m2
      && Ascii.eqb d2 "-" && isDigit a1 && isDigit a2
  | _ => false
  end.

(** The year-month-day rendering of a time value: [YYYY-MM-DD]. *)
Definition ymd (t : Z) : string :=
  digits 4 (YearFromTime t) +:+ "-" +:+ digits 2 (MonthFromTime t + 1)
  +:+ "-" +:+ digits 2 (DateFromTime t).

End JsDate.

(** ** Array.prototype.sort as V8 runs it (TimSort, builtins/array-sort.tq)

    The comparator of [getAllPosts] never returns zero, so by the letter of
    ECMA-262 the order that [sort] produces is left to the engine.  The
    site is generated under Node.js, whose engine is V8; its TimSort is
    modelled here on lists.  The work array is the list, the stack of
    pending runs is a list of runs with the most recent run first.  V8
    consults the comparator only through [order < 0], always on a call
    whose first argument stood later in the array than the second.  The
    merge of two adjacent runs is modelled by its result, the two-way merge
    that takes from the right run exactly when [order < 0]; the galloping
    of [MergeLow] and [MergeHigh] finds the same positions with fewer
    comparisons ([sort_unique] below: the outcome of the sort is fixed by
    the outcomes of the comparisons, not by their schedule). *)

Module V8.

Section ArraySort.

Context {A : Type}.
Variable comparefn : A -> A -> Z.

(** [sortState.Compare(x, y) < 0] *)
Definition order_lt (x y : A) : bool := comparefn x y <? 0.

(** The loop of [CountAndMakeRun]: how many further elements continue the
    run that ends in [previousElement]. *)
Fixpoint run_tail (isDescending : bool) (previousElement : A)
    (work : list A) : nat :=
  match work with
  | [] => O
  | currentElement :: work' =>
      if Bool.eqb (order_lt currentElement previousElement) isDescending
      then S (run_tail isDescending currentElement work')
      else O
  end.

(** [CountAndMakeRun(low, high)] on the slice [work] of the array: the
    length of the run that starts the slice, and the slice once a
    strictly descending run has been reversed in place. *)
Definition CountAndMakeRun (work : list A) : nat * list A :=
  match work with
  | [] => (O, work)
  | [_] => (1%nat, work)
  | elementHigh :: elementLow :: rest =>
      let isDescending := order_lt elementLow elementHigh in
      let runLength := S (S (run_tail isDescending elementLow rest)) in
      (runLength,
       if isDescending
       then reverse (take runLength work) ++ drop runLength work
       else work)
  end.

(** The binary search of [BinaryInsertionSort] for the place of [pivot]
    in the sorted slice [work]. *)
Fixpoint find_insertion_point (fuel : nat) (pivot : A) (work : list A)
    (left right : nat) : nat :=
  match fuel with
  | O => left
  | S fuel' =>
      if (left <? right)%nat then
        let mid := (left + (right - left) / 2)%nat in
        match work !! mid with
        | Some x =>
            if order_lt pivot x
            then find_insertion_point fuel' pivot work left mid
            else find_insertion_point fuel' pivot work (S mid) right
        | None => left
        end
      else left
  end.

(** [BinaryInsertionSort(low, start, high)]: [sorted] is the slice from
    [low] to [start], already in order, [todo] the slice from [start] to
    [high]; each pivot is moved to its place in the sorted slice. *)
Fixpoint BinaryInsertionSort (sorted todo : list A) : list A :=
  match todo with
  | [] => sorted
  | pivot :: todo' =>
      let left :=
        find_insertion_point (length sorted) pivot sorted 0 (length sorted) in
      BinaryInsertionSort (take left sorted ++ pivot :: drop left sorted) todo'
  end.

(** [ComputeMinRunLength]: [n] itself below 64, otherwise its six leading
    bits, plus one when a lower bit is set. *)
Fixpoint ComputeMinRunLength_loop (fuel n r : nat) : nat :=
  match fuel with
  | O => (n + r)%nat
  | S fuel' =>
      if (64 <=? n)%nat
      then ComputeMinRunLength_loop fuel' (n / 2) (Nat.lor r (Nat.land n 1))
      else (n + r)%nat
  end.

Definition ComputeMinRunLength (n : nat) : nat :=
  ComputeMinRunLength_loop n n 0.

(** The merge of two adjacent runs, [a] before [b] in the array: the head
    of [b] is taken when it compares below the head of [a]. *)
Fixpoint Merge (a : list A) : list A -> list A :=
  fix merge_into (b : list A) : list A :=
    match a, b with
    | [], _ => b
    | _, [] => a
    | x :: a', y :: b' =>
        if order_lt y x then y :: merge_into b' else x :: Merge a' b
    end.

(** One round of the loop of [MergeCollapse] on the stack of pending
    runs, most recent first; [None] when the loop breaks. *)
Definition MergeCollapse_step (pending : list (list A))
    : option (list (list A)) :=
  match pending with
  | x :: y :: rest =>
      let invariant_top :=
        match rest with
        | z :: _ => (length y + length x <? length z)%nat
        | [] => true
        end in
      let invariant_below :=
        match rest with
        | z :: w :: _ => (length z + length y <? length w)%nat
        | _ => true
        end in
      if negb invariant_top || negb invariant_below then
        match rest with
        | z :: rest' =>
            if (length z <? length x)%nat
            then Some (x :: Merge z y :: rest')
            else Some (Merge y x :: rest)
        | [] => Some (Merge y x :: rest)
        end
      else if (length y <=? length x)%nat then Some (Merge y x :: rest)
      else None
  | _ => None
  end.

Fixpoint MergeCollapse (fuel : nat) (pending : list (list A))
    : list (list A) :=
  match fuel with
  | O => pending
  | S fuel' =>
      match MergeCollapse_step pending with
      | Some pending' => MergeCollapse fuel' pending'
      | None => pending
      end
  end.

(** [MergeForceCollapse]: merge until a single run is left. *)
Definition MergeForceCollapse_step (pending : list (list A))
    : option (list (list A)) :=
  match pending with
  | x :: y :: rest =>
      match rest with
      | z :: rest' =>
          if (length z <? length x)%nat
          then Some (x :: Merge z y :: rest')
          else Some (Merge y x :: rest)
      | [] => Some (Merge y x :: rest)
      end
  | _ => None
  end.

Fixpoint MergeForceCollapse (fuel : nat) (pending : list (list A))
    : list (list A) :=
  match fuel with
  | O => pending
  | S fuel' =>
      match MergeForceCollapse_step pending with
      | Some pending' => MergeForceCollapse fuel' pending'
      | None => pending
      end
  end.

(** One round of the main loop of [ArrayTimSortImpl]: the next run of
    the slice that remains, extended to [minRunLength] elements by binary
    insertion when it is shorter, and the slice after it. *)
Definition next_run (minRunLength : nat) (remaining : list A)
    : list A * list A :=
  let '(currentRunLength, work) := CountAndMakeRun remaining in
  if (currentRunLength <? minRunLength)%nat then
    let forcedRunLength := Nat.min minRunLength (length remaining) in
    (BinaryInsertionSort (take currentRunLength work)
       (drop currentRunLength (take forcedRunLength work)),
     drop forcedRunLength work)
  else (take currentRunLength work, drop currentRunLength work).

Fixpoint collect_runs (fuel minRunLength : nat) (pending : list (list A))
    (remaining : list A) : list (list A) :=
  match fuel, remaining with
  | _, [] => pending
  | O, _ => remaining :: pending
  | S fuel', _ =>
      let '(run, rest) := next_run minRunLength remaining in
      collect_runs fuel' minRunLength
        (MergeCollapse (S (length pending)) (run :: pending)) rest
  end.

(** [ArrayTimSortImpl]: the work array at the end is the runs left on the
    stack, oldest first. *)
Definition ArrayTimSortImpl (work : list A) : list A :=
  if (length work <? 2)%nat then work
  else
    let pending :=
      collect_runs (length work) (ComputeMinRunLength (length work)) [] work in
    concat (reverse (MergeForceCollapse (length pending) pending)).

(** [array.sort(comparefn)] on an array without holes or [undefined]. *)
Definition sort (array : list A) : list A := ArrayTimSortImpl array.

End ArraySort.

End V8.

(** ** The file system and the imported packages *)

Module Node.

(** What a path names: a file with its text (read as utf8), or a directory
    with its entries in the order in which [readdirSync] lists them. *)
Inductive Entry : Type :=
  | File (contents : string)
  | Directory (entries : list string).

(** [fs.readdirSync(path)] *)
Definition readdirSync (fs : gmap string Entry) (path : string)
    : Result (list string) :=
  match fs !! path with
  | Some (Directory entries) => Ok entries
  | Some (File _) => Throw ENOTDIR
  | None => Throw ENOENT
  end.

(** [fs.readFileSync(path, 'utf8')] *)
Definition readFileSync (fs : gmap string Entry) (path : string)
    : Result string :=
  match fs !! path with
  | Some (File contents) => Ok contents
  | Some (Directory _) => Throw EISDIR
  | None => Throw ENOENT
  end.

(** The packages that [lib/api.ts] imports and the process it runs in;
    their code is not part of the repository. *)
Class Imports : Type := {
  (** [process.cwd()] *)
  cwd : string;
  (** [join] of [path] *)
  join : string -> string -> string;
  (** [matter] of [gray-matter]: the front matter as an object, and the
      text below it.  The package keeps a cache of the texts it was given,
      so that a later call on a text need not repeat what the first did:
      the function stands for what one call returns. *)
  matter : string -> Result (gmap string Value * string);
  (** [remark().use(html).process(markdown)] followed by [toString()].
      The pipeline is taken as a function of the text it is given: that a
      second run on the same text returns the same HTML is thereby taken
      for granted, and is nothing that this development establishes. *)
  remark_html : string -> Result string;
}.

(** A property read [data.key]: [undefined] when the object lacks it. *)
Definition prop (data : gmap string Value) (key : string) : Value :=
  default Undefined (data !! key).

End Node.

Export Node.

(** ** lib/api.ts *)

Module Api.

(** The post record ([interfaces/post]).  [date] holds the time value of
    the Date object [data.date]: a record is only built once
    [getFriendlyDate] has returned, and it returns for a valid Date only.
    [title] is whatever the front matter holds under that key. *)
Record Post : Type := {
  title : Value;
  date : Z;
  slug : string;
  friendlyDate : string;
  content : string;
  contentHtml : string;
}.

(** [date.toISOString().substring(0, 10)] *)
Definition getFriendlyDate (date : Value) : Result string :=
  iso ← JsDate.toISOString date;
  Ok (JsString.substring_from_0 10 iso).

(** [filename.replace(/\.md$/, '')] *)
Definition getSlugFromFilename (filename : string) : string :=
  JsString.replace_md_at_end filename.

Definition getFilenameFromSlug (slug : string) : string :=
  slug +:+ ".md".

(** [(post1, post2) => (post1.date > post2.date ? -1 : 1)] *)
Definition comparePosts (post1 post2 : Post) : Z :=
  if date post1 >? date post2 then -1 else 1.

Section WithImports.

Context `{Imports}.

Definition postsDirectory : string := join cwd "_posts".

Definition getPostSlugs (fs : gmap string Entry) : Result (list string) :=
  readdirSync fs postsDirectory.

Definition getFilepathFromSlug (slug : string) : string :=
  join postsDirectory (getFilenameFromSlug slug).

Definition markdownToHtml (markdown : string) : Result string :=
  remark_html markdown.

(** The object literal is evaluated field by field: [getFriendlyDate]
    throws before the body is rendered.  Once it has returned, [data.date]
    is a valid Date, and the last branch below is never taken. *)
Definition getPostFromSlug (fs : gmap string Entry) (slug : string)
    : Result Post :=
  fileContents ← readFileSync fs (getFilepathFromSlug slug);
  '(data, content) ← matter fileContents;
  friendlyDate ← getFriendlyDate (prop data "date");
  contentHtml ← markdownToHtml content;
  match prop data "date" with
  | DateObj (Some tv) =>
      Ok {| title := prop data "title";
            date := tv;
            slug := slug;
            friendlyDate := friendlyDate;
            content := content;
            contentHtml := contentHtml |}
  | _ => Throw TypeError
  end.

Definition getPostFromFilename (fs : gmap string Entry) (filename : string)
    : Result Post :=
  getPostFromSlug fs (getSlugFromFilename filename).

(** The [for ... of] loop of [getAllPosts]: [posts] is the array built
    so far; an awaited promise that rejects ends the loop. *)
Fixpoint fetchPosts (fs : gmap string Entry) (filenames : list string)
    (posts : list Post) : Result (list Post) :=
  match filenames with
  | [] => Ok posts
  | filename :: filenames' =>
      post ← getPostFromFilename fs filename;
      fetchPosts fs filenames' (posts ++ [post])
  end.

Definition getAllPosts (fs : gmap string Entry) : Result (list Post) :=
  filenames ← readdirSync fs postsDirectory;
  posts ← fetchPosts fs filenames [];
  Ok (V8.sort comparePosts posts).

Definition getAllSlugs (fs : gmap string Entry) : Result (list string) :=
  filenames ← readdirSync fs postsDirectory;
  Ok (map getSlugFromFilename filenames).

End WithImports.

End Api.

Export Api.

(** ** The pages (app/page.tsx, app/posts/[slug]/page.tsx)

    A JSX expression evaluates to a description of the element, which is
    what a page function returns: the type of the element, its key, its
    other props and its children. *)

Module React.

Inductive Attr : Type :=
  | StrAttr (name value : string)       (* [name="value"] *)
  | InnerHtml (html : string).          (* [dangerouslySetInnerHTML] *)

#[warnings="-register-all"]
Inductive Node : Type :=
  | Element (type : string) (key : option string) (attrs : list Attr)
      (children : list Node)
  | Fragment (children : list Node)     (* [<> ... </>] *)
  | Text (s : string)                   (* literal text, or a string child *)
  | Child (v : Value).                  (* [{e}] for a front matter value *)

End React.

Export React.

(** app/page.tsx: the list of all posts. *)
Module HomePage.

Section WithImports.

Context `{Imports}.

(** The body of [posts.map(post => ...)]. *)
Definition item (post : Post) : Node :=
  Element "li" (Some (slug post)) []
    [Element "Link" None [StrAttr "href" ("posts/" +:+ slug post)]
       [Text (friendlyDate post); Text ": "; Child (title post)]].

Definition Page (fs : gmap string Entry) : Result Node :=
  posts ← getAllPosts fs;
  Ok (Element "div" None []
        [Element "h1" None [] [Text "robowager's blog"];
         Element "p" None [] [Text "Notes of an armchair roboticist"];
         Element "ul" None [] (map item posts)]).

End WithImports.

End HomePage.

(** app/posts/[slug]/page.tsx: the page of one post. *)
Module PostPage.

(** The argument [{ params : { slug } }] of the page functions. *)
Record Params : Type := { slug : string }.

(** What [generateMetadata] returns. *)
Record Metadata : Type := { title : Value }.

Section WithImports.

Context `{Imports}.

Definition generateMetadata (fs : gmap string Entry) (params : Params)
    : Result Metadata :=
  post ← getPostFromSlug fs (slug params);
  Ok {| title := Api.title post |}.

(** The element that [Page] returns for a post. *)
Definition article (post : Post) : Node :=
  Fragment
    [Element "article" None [StrAttr "className" "post"]
       [Element "h1" None [] [Child (Api.title post)];
        Element "p" None [] [Text (friendlyDate post)];
        Element "div" None [InnerHtml (contentHtml post)] []]].

Definition Page (fs : gmap string Entry) (params : Params) : Result Node :=
  post ← getPostFromSlug fs (slug params);
  Ok (article post).

(** [getAllSlugs().map(slug => ({slug: slug}))] *)
Definition generateStaticParams (fs : gmap string Entry)
    : Result (list Params) :=
  slugs ← getAllSlugs fs;
  Ok (map (fun slug => {| slug := slug |}) slugs).

End WithImports.

End PostPage.

(** What can be read off a page: the targets of its links, the keys of
    its elements, and the values it shows. *)
Module Observe.

Definition attr_href (a : Attr) : list string :=
  match a with
  | StrAttr name value => if String.eqb name "href" then [value] else []
  | InnerHtml _ => []
  end.

(** The [href] of every element of the tree, in document order. *)
Fixpoint hrefs (n : Node) : list string :=
  match n with
  | Element _ _ attrs children =>
      List.flat_map attr_href attrs ++ List.flat_map hrefs children
  | Fragment children => List.flat_map hrefs children
  | Text _ => []
  | Child _ => []
  end.

(** The keys of the elements of the tree, in document order. *)
Fixpoint keys (n : Node) : list string :=
  match n with
  | Element _ key _ children =>
      match key with Some k => [k] | None => [] end
      ++ List.flat_map keys children
  | Fragment children => List.flat_map keys children
  | Text _ => []
  | Child _ => []
  end.

(** The link that the home page makes for a slug. *)
Definition post_href (slug : string) : string := "posts/" +:+ slug.

End Observe.

(** ** A concrete site, for closed examples

    Stand-ins for the imported packages on the inputs used in the examples
    of this file: POSIX [path.join] on plain names, [gray-matter] on front
    matter that is a flat block of [key: value] lines with plain scalars
    (resolved as js-yaml does: a [YYYY-MM-DD] timestamp becomes a Date built
    with [Date.UTC], digits a number, anything else a string), and the HTML
    that [remark-html] yields for one paragraph of plain text. *)

Module Site.

Definition nl : string := String "010" EmptyString.

(** The text with the given lines, each ended by a newline. *)
Definition unlines (ls : list string) : string :=
  foldr (fun l acc => l +:+ nl +:+ acc) EmptyString ls.

(** [s.split('\n')] *)
Fixpoint split_lines (current s : string) : list string :=
  match s with
  | EmptyString => [current]
  | String c rest =>
      if Ascii.eqb c "010" then current :: split_lines EmptyString rest
      else split_lines (current +:+ String c EmptyString) rest
  end.

Definition all_digits (cs : list ascii) : bool :=
  forallb JsDate.isDigit cs && negb (Nat.eqb (length cs) 0).

Definition number_of (cs : list ascii) : Z :=
  fold_left (fun acc c => 10 * acc + (Z.of_nat (nat_of_ascii c) - 48)) cs 0.

(** A scalar of the form [YYYY-MM-DD] is a timestamp: the Date that
    [Date.UTC(year, month - 1, day)] makes. *)
Definition timestamp (cs : list ascii) : option Z :=
  match cs with
  | [y1; y2; y3; y4; h1; m1; m2; h2; d1; d2] =>
      if all_digits [y1; y2; y3; y4; m1; m2; d1; d2]
         && Ascii.eqb h1 "-" && Ascii.eqb h2 "-"
      then Some (JsDate.UTC (number_of [y1; y2; y3; y4])
                   (number_of [m1; m2] - 1) (number_of [d1; d2]))
      else None
  | _ => None
  end.

(** The value of a plain YAML scalar. *)
Definition scalar (s : string) : Value :=
  let cs := list_ascii_of_string s in
  match timestamp cs with
  | Some tv => DateObj (Some tv)
  | None => if all_digits cs then Number (number_of cs) else Str s
  end.

(** A block of [key: value] lines as an object; a line without [": "] or a
    repeated key is a YAML error. *)
Fixpoint flat_mapping (ls : list string) (data : gmap string Value)
    : Result (gmap string Value) :=
  match ls with
  | [] => Ok data
  | l :: ls' =>
      if String.eqb l EmptyString then flat_mapping ls' data
      else
        match String.index 0 ": " l with
        | None => Throw YAMLException
        | Some i =>
            let key := String.substring 0 i l in
            let value :=
              String.substring (i + 2) (String.length l - (i + 2)) l in
            match data !! key with
            | Some _ => Throw YAMLException
            | None => flat_mapping ls' (<[key := scalar value]> data)
            end
        end
  end.

Definition strip_newline (s : string) : string :=
  match s with
  | String c rest => if Ascii.eqb c "010" then rest else s
  | EmptyString => s
  end.

(** [matter(input)]: without an opening [---] the whole input is content;
    otherwise the block up to the closing delimiter is parsed, and the
    content starts after the delimiter and one newline. *)
Definition matter_flat (input : string) : Result (gmap string Value * string) :=
  if negb (String.prefix "---" input) then Ok (∅, input)
  else if String.prefix "----" input then Ok (∅, input)
  else
    let str := String.substring 3 (String.length input - 3) input in
    match String.index 0 (nl +:+ "---") str with
    | None =>
        data ← flat_mapping (split_lines EmptyString str) ∅;
        Ok (data, EmptyString)
    | Some closeIndex =>
        let block := String.substring 0 closeIndex str in
        data ← flat_mapping (split_lines EmptyString block) ∅;
        Ok (data,
            strip_newline
              (String.substring (closeIndex + 4)
                 (String.length str - (closeIndex + 4)) str))
    end.

(** One paragraph of plain text, as HTML. *)
Definition paragraph (markdown : string) : Result string :=
  match split_lines EmptyString markdown with
  | line :: _ => Ok ("<p>" +:+ line +:+ "</p>" +:+ nl)
  | [] => Ok EmptyString
  end.

Definition imports : Imports :=
  {| cwd := "/site";
     join := fun dir name => dir +:+ "/" +:+ name;
     matter := matter_flat;
     remark_html := paragraph |}.

Definition post_file (titleLine dateLine body : list string) : Entry :=
  File (unlines (["---"] ++ titleLine ++ dateLine ++ ["---"] ++ body)).

(** Two posts, [a.md] of 2 January 2024 and [b.md] of 1 January 2024. *)
Definition a_md : Entry :=
  post_file ["title: A"] ["date: 2024-01-02"] ["first"].
Definition b_md : Entry :=
  post_file ["title: B"] ["date: 2024-01-01"] ["second"].

(** The record of a post with a one-line body. *)
Definition record (slug title : string) (tv : Z) (friendly body : string)
    : Post :=
  {| title := Str title;
     date := tv;
     slug := slug;
     friendlyDate := friendly;
     content := unlines [body];
     contentHtml := unlines ["<p>" +:+ body +:+ "</p>"] |}.

Definition post_a : Post := record "a" "A" 1704153600000 "2024-01-02" "first".
Definition post_b : Post := record "b" "B" 1704067200000 "2024-01-01" "second".

Definition two_posts (listing : list string) : gmap string Entry :=
  {[ "/site/_posts" := Directory listing;
     "/site/_posts/a.md" := a_md;
     "/site/_posts/b.md" := b_md ]}.

(** Three posts of which [x.md] and [y.md] carry the same date. *)
Definition tied_posts : gmap string Entry :=
  {[ "/site/_posts" := Directory ["x.md"; "new.md"; "y.md"];
     "/site/_posts/x.md" := post_file ["title: X"] ["date: 2024-03-05"] ["x"];
     "/site/_posts/y.md" := post_file ["title: Y"] ["date: 2024-03-05"] ["y"];
     "/site/_posts/new.md" :=
       post_file ["title: New"] ["date: 2024-06-01"] ["new"] ]}.

Definition post_x : Post := record "x" "X" 1709596800000 "2024-03-05" "x".
Definition post_y : Post := record "y" "Y" 1709596800000 "2024-03-05" "y".
Definition post_new : Post :=
  record "new" "New" 1717200000000 "2024-06-01" "new".

(** A post without a title, and one without a date. *)
Definition untitled : gmap string Entry :=
  {[ "/site/_posts" := Directory ["untitled.md"];
     "/site/_posts/untitled.md" :=
       post_file [] ["date: 2024-08-11"] ["text"] ]}.

Definition undated : gmap string Entry :=
  {[ "/site/_posts" := Directory ["a.md"; "undated.md"; "b.md"];
     "/site/_posts/a.md" := a_md;
     "/site/_posts/b.md" := b_md;
     "/site/_posts/undated.md" := post_file ["title: No date"] [] ["text"] ]}.

(** A post whose date lies past the year 9999: js-yaml accepts a day of
    the month that overflows into the next year. *)
Definition far_future : gmap string Entry :=
  {[ "/site/_posts" := Directory ["far.md"];
     "/site/_posts/far.md" :=
       post_file ["title: Far"] ["date: 9999-12-32"] ["far"] ]}.

(** A directory that also holds a file that is not markdown. *)
Definition with_notes : gmap string Entry :=
  {[ "/site/_posts" := Directory ["a.md"; "notes.txt"];
     "/site/_posts/a.md" := a_md;
     "/site/_posts/notes.txt" := File "to do" ]}.

End Site.

(** The home page of the site [Site.tied_posts]. *)
Module SitePages.

Definition tied_home : Node :=
  Element "div" None []
    [Element "h1" None [] [Text "robowager's blog"];
     Element "p" None [] [Text "Notes of an armchair roboticist"];
     Element "ul" None []
       (map HomePage.item [Site.post_new; Site.post_x; Site.post_y])].

End SitePages.

(** ** The vocabulary of the specification *)

Module Spec.

Section Order.

Context {A : Type} (key : A -> Z).

(** No element is followed, anywhere later, by one with a smaller key. *)
Definition ascending (l : list A) : Prop :=
  StronglySorted (fun a b => key a <= key b) l.

Definition strictly_descending (l : list A) : Prop :=
  StronglySorted (fun a b => key b < key a) l.

(** Elements with equal keys stand in [l'] in the order they have in
    [l]. *)
Definition keeps_ties (l l' : list A) : Prop :=
  forall k : Z,
    filter (fun x => key x = k) l' = filter (fun x => key x = k) l.

(** [l'] holds the elements of [l], those with equal keys in their
    original order. *)
Definition rearranged (l l' : list A) : Prop :=
  Permutation l l' /\ keeps_ties l l'.

(** Every run on the stack of pending runs is in order. *)
Definition runs_ok (pending : list (list A)) : Prop :=
  Forall ascending pending.

End Order.

(** Every adjacent pair [(p1, p2)] has [p1.date >= p2.date]. *)
Definition date_descending (posts : list Post) : Prop :=
  forall (i : nat) (p1 p2 : Post),
    posts !! i = Some p1 -> posts !! S i = Some p2 -> date p1 >= date p2.

(** Posts with equal dates stand in [sorted] in the order they have in
    [enumerated]. *)
Definition ties_in_order (enumerated sorted : list Post) : Prop :=
  forall d : Z,
    filter (fun p => date p = d) sorted
    = filter (fun p => date p = d) enumerated.

(** The filename with a single trailing [.md] removed when present, and
    the filename itself otherwise. *)
Definition without_md (filename : string) : string :=
  if JsString.endsWith filename ".md"
  then String.substring 0 (String.length filename - 3) filename
  else filename.

End Spec.

Export Spec.

(** * Properties *)

(** ** Strings *)

Import JsString.

Section StringFacts.
Local Open Scope string_scope.

Lemma append_cons c s1 s2 : String c s1 +:+ s2 = String c (s1 +:+ s2).
Proof. reflexivity. Qed.

Lemma append_nil_l s : "" +:+ s = s.
Proof. reflexivity. Qed.

Lemma append_nil_r s : s +:+ "" = s.
Proof. induction s as [|c s IH]; [done | by rewrite append_cons, IH]. Qed.

Lemma append_assoc s1 s2 s3 : (s1 +:+ s2) +:+ s3 = s1 +:+ (s2 +:+ s3).
Proof.
  induction s1 as [|c s1 IH]; [done | by rewrite !append_cons, IH].
Qed.

Lemma length_append s1 s2 :
  String.length (s1 +:+ s2) = (String.length s1 + String.length s2)%nat.
Proof.
  induction s1 as [|c s1 IH]; [done | rewrite append_cons; simpl; by rewrite IH].
Qed.

Lemma substring_0_append s1 s2 :
  String.substring 0 (String.length s1) (s1 +:+ s2) = s1.
Proof.
  induction s1 as [|c s1 IH]; [by destruct s2|].
  rewrite append_cons. simpl. by rewrite IH.
Qed.

Lemma append_md_not_md c s : String c (s +:+ ".md") <> ".md".
Proof.
  intros Heq. apply (f_equal String.length) in Heq.
  simpl in Heq. rewrite length_append in Heq. simpl in Heq. lia.
Qed.

Lemma replace_md_at_end_append s : replace_md_at_end (s +:+ ".md") = s.
Proof.
  induction s as [|c s IH]; [reflexivity|].
  rewrite append_cons. cbn [replace_md_at_end].
  destruct (String.eqb_spec (String c (s +:+ ".md")) ".md") as [Heq|_].
  - by apply append_md_not_md in Heq.
  - by rewrite IH.
Qed.

Lemma endsWith_append s suffix : endsWith (s +:+ suffix) suffix = true.
Proof.
  induction s as [|c s IH].
  - rewrite append_nil_l. destruct suffix; simpl; [done|].
    by rewrite Ascii.eqb_refl, String.eqb_refl.
  - rewrite append_cons. cbn [endsWith]. rewrite IH. apply orb_true_r.
Qed.

Lemma endsWith_split s suffix :
  endsWith s suffix = true -> exists s', s = s' +:+ suffix.
Proof.
  induction s as [|c s IH]; cbn [endsWith]; intros Hs.
  - rewrite orb_false_r in Hs. apply String.eqb_eq in Hs. by exists "".
  - apply orb_true_iff in Hs as [Hs|Hs].
    + apply String.eqb_eq in Hs. exists "". by rewrite Hs.
    + destruct (IH Hs) as [s' ->]. by exists (String c s').
Qed.

Lemma replace_md_at_end_no_match s :
  endsWith s ".md" = false -> replace_md_at_end s = s.
Proof.
  induction s as [|c s IH]; [reflexivity|].
  cbn [endsWith replace_md_at_end]. intros Hs.
  apply orb_false_iff in Hs as [Hs1 Hs2].
  rewrite Hs1. by rewrite IH.
Qed.

Lemma without_md_replace filename :
  without_md filename = replace_md_at_end filename.
Proof.
  unfold without_md. destruct (endsWith filename ".md") eqn:E.
  - apply endsWith_split in E as [s ->].
    rewrite replace_md_at_end_append, length_append. simpl.
    replace (String.length s + 3 - 3)%nat with (String.length s) by lia.
    apply substring_0_append.
  - by rewrite replace_md_at_end_no_match.
Qed.
End StringFacts.

(** ** Dates *)

Import JsDate.

(** Goals about quotients and remainders by constants. *)
Ltac euclid := Z.div_mod_to_equations; lia.

(** Case analysis on a month number known to lie between 0 and 11. *)
Ltac each_month month :=
  let Hcase := fresh "Hcase" in
  assert (month = 0 \/ month = 1 \/ month = 2 \/ month = 3 \/ month = 4
          \/ month = 5 \/ month = 6 \/ month = 7 \/ month = 8 \/ month = 9
          \/ month = 10 \/ month = 11) as Hcase by lia;
  repeat destruct Hcase as [-> | Hcase]; try subst month.

Lemma DaysInYear_cases y : DaysInYear y = 365 \/ DaysInYear y = 366.
Proof.
  unfold DaysInYear.
  destruct (y mod 4 =? 0), (y mod 100 =? 0), (y mod 400 =? 0); simpl; auto.
Qed.

Lemma DayFromYear_step y : DayFromYear (y + 1) = DayFromYear y + DaysInYear y.
Proof.
  unfold DayFromYear, DaysInYear.
  destruct (y mod 4 =? 0) eqn:E4; destruct (y mod 100 =? 0) eqn:E100;
    destruct (y mod 400 =? 0) eqn:E400; simpl;
    rewrite ?Z.eqb_eq, ?Z.eqb_neq in *; euclid.
Qed.

Lemma DayFromYear_lt y1 y2 : y1 < y2 -> DayFromYear y1 < DayFromYear y2.
Proof. unfold DayFromYear. intros. euclid. Qed.

Lemma DayFromYear_le y1 y2 : y1 <= y2 -> DayFromYear y1 <= DayFromYear y2.
Proof.
  intros Hle. destruct (Z.eq_dec y1 y2) as [->|]; [lia|].
  apply Z.lt_le_incl, DayFromYear_lt. lia.
Qed.

(** The day of [t] falls within the year that [YearFromTime] computes. *)
Lemma YearFromTime_days t :
  0 <= Day t - DayFromYear (YearFromTime t) < DaysInYear (YearFromTime t).
Proof.
  unfold YearFromTime, DayFromYear, DaysInYear.
  generalize (Day t). intros d. cbv zeta.
  set (q400 := (d - 11323) / 146097).
  set (r400 := (d - 11323) mod 146097).
  assert (d - 11323 = 146097 * q400 + r400 /\ 0 <= r400 < 146097) as [Hd Hr400].
  { unfold q400, r400. pose proof (Z.div_mod (d - 11323) 146097).
    pose proof (Z.mod_pos_bound (d - 11323) 146097). lia. }
  clearbody q400 r400.
  set (n100 := Z.min (r400 / 36524) 3).
  assert (0 <= n100 <= 3 /\ 36524 * n100 <= r400 /\
          (r400 - 36524 * n100 < 36524
           \/ n100 = 3 /\ r400 - 36524 * n100 = 36524))
    as (Hn100 & Hlo & Hhi) by (unfold n100; euclid).
  clearbody n100.
  set (r100 := r400 - 36524 * n100) in *.
  assert (0 <= r100 <= 36524) as Hr100 by lia.
  set (n4 := r100 / 1461). set (r4 := r100 mod 1461).
  assert (r100 = 1461 * n4 + r4 /\ 0 <= r4 < 1461 /\ 0 <= n4 <= 24)
    as (Hr100' & Hr4 & Hn4) by (unfold n4, r4; euclid).
  clearbody n4 r4.
  set (n1 := Z.min (r4 / 365) 3).
  assert (0 <= n1 <= 3 /\ 365 * n1 <= r4 /\
          (r4 - 365 * n1 < 365 \/ n1 = 3 /\ r4 - 365 * n1 = 365))
    as (Hn1 & Hlo1 & Hhi1) by (unfold n1; euclid).
  clearbody n1.
  set (y := 2001 + 400 * q400 + 100 * n100 + 4 * n4 + n1).
  assert ((y - 1601) / 400 = q400 + 1) as -> by (unfold y; euclid).
  assert ((y - 1901) / 100 = 4 * q400 + n100 + 1) as -> by (unfold y; euclid).
  assert ((y - 1969) / 4 = 100 * q400 + 25 * n100 + n4 + 8) as ->
    by (unfold y; euclid).
  assert (y mod 4 = (n1 + 1) mod 4) as -> by (unfold y; euclid).
  assert (y mod 100 = (4 * n4 + n1 + 1) mod 100) as -> by (unfold y; euclid).
  assert (y mod 400 = (100 * n100 + 4 * n4 + n1 + 1) mod 400) as ->
    by (unfold y; euclid).
  destruct (_ mod 4 =? 0) eqn:E4; destruct (_ mod 100 =? 0) eqn:E100;
    destruct (_ mod 400 =? 0) eqn:E400; simpl;
    rewrite ?Z.eqb_eq, ?Z.eqb_neq in *; unfold y; euclid.
Qed.

(** The definition of ECMA-262: [YearFromTime t] is the largest year that
    starts at or before [t]. *)
Lemma YearFromTime_spec t y :
  TimeFromYear y <= t <-> y <= YearFromTime t.
Proof.
  pose proof (YearFromTime_days t) as Hd.
  pose proof (DayFromYear_step (YearFromTime t)) as Hs.
  unfold TimeFromYear. unfold Day in Hd. unfold msPerDay in *.
  split; intros Hy.
  - destruct (Z_le_gt_dec y (YearFromTime t)) as [|Hgt]; [done|].
    pose proof (DayFromYear_le (YearFromTime t + 1) y). euclid.
  - pose proof (DayFromYear_le y (YearFromTime t)). euclid.
Qed.

Lemma YearFromTime_unique t y :
  DayFromYear y <= Day t < DayFromYear (y + 1) -> YearFromTime t = y.
Proof.
  intros [Hlo Hhi].
  pose proof (YearFromTime_days t) as Hd.
  pose proof (DayFromYear_step (YearFromTime t)) as Hs.
  destruct (Z.lt_trichotomy (YearFromTime t) y) as [Hlt | [Heq | Hgt]]; [|done|].
  - pose proof (DayFromYear_le (YearFromTime t + 1) y). lia.
  - pose proof (DayFromYear_le (y + 1) (YearFromTime t)). lia.
Qed.

Lemma DayWithinYear_bounds t : 0 <= DayWithinYear t < 365 + InLeapYear t.
Proof.
  pose proof (YearFromTime_days t) as Hd. unfold DayWithinYear, InLeapYear.
  destruct (DaysInYear_cases (YearFromTime t)) as [E|E]; rewrite E in *;
    simpl; lia.
Qed.

Lemma InLeapYear_cases t : InLeapYear t = 0 \/ InLeapYear t = 1.
Proof. unfold InLeapYear. destruct (_ =? _); auto. Qed.

Lemma MonthFromTime_bounds t : 0 <= MonthFromTime t <= 11.
Proof.
  unfold MonthFromTime.
  repeat match goal with
         | |- context [if ?b then _ else _] => destruct b
         end; lia.
Qed.

Lemma DateFromTime_bounds t : 1 <= DateFromTime t <= 31.
Proof.
  pose proof (DayWithinYear_bounds t) as Hd.
  pose proof (InLeapYear_cases t) as Hl.
  unfold DateFromTime, MonthFromTime.
  repeat match goal with
         | |- context [if ?a <? ?b then _ else _] =>
             destruct (Z.ltb_spec a b)
         end; lia.
Qed.

Lemma Day_of_days d : Day (d * msPerDay) = d.
Proof. unfold Day, msPerDay. apply Z.div_mul. lia. Qed.

(** A calendar date read back from the time value made for it. *)
Lemma MakeDay_roundtrip year month date :
  0 <= month <= 11 ->
  1 <= date <= DaysInMonth year month ->
  let t := MakeDay year month date * msPerDay in
  YearFromTime t = year /\ MonthFromTime t = month /\ DateFromTime t = date.
Proof.
  intros Hm Hd t.
  assert (month / 12 = 0 /\ month mod 12 = month) as [Hq Hr] by euclid.
  assert (Day t = MakeDay year month date) as Hday by apply Day_of_days.
  pose proof (DayFromYear_step year) as Hstep.
  pose proof (DaysInYear_cases year) as Hcases.
  unfold MakeDay in Hday. rewrite Hq, Hr, Z.add_0_r in Hday.
  unfold DaysInMonth in Hd.
  assert (YearFromTime t = year) as Hyear.
  { apply YearFromTime_unique. rewrite Hday, Hstep.
    destruct Hcases as [E|E]; rewrite E in *; simpl in *;
      each_month month; simpl in *; lia. }
  split; [exact Hyear|].
  unfold DateFromTime, MonthFromTime, DayWithinYear, InLeapYear.
  rewrite Hyear, Hday.
  destruct Hcases as [E|E]; rewrite E in *; simpl in *;
    each_month month; simpl in *;
    repeat match goal with
           | |- context [?a <? ?b] => destruct (Z.ltb_spec a b); try lia
           end; split; lia.
Qed.

Lemma length_digits w n : String.length (digits w n) = w.
Proof.
  revert n; induction w as [|w IH]; intros n; [done|].
  cbn [digits]. rewrite length_append, IH. simpl. lia.
Qed.

Lemma isDigit_digit n : isDigit (digit n) = true.
Proof.
  unfold digit. pose proof (Z.mod_pos_bound n 10) as Hb.
  generalize dependent (n mod 10). intros r Hb.
  assert (r = 0 \/ r = 1 \/ r = 2 \/ r = 3 \/ r = 4 \/ r = 5 \/ r = 6 \/ r = 7
          \/ r = 8 \/ r = 9) as Hr by lia.
  repeat destruct Hr as [-> | Hr]; try subst r; reflexivity.
Qed.

Lemma digits_S w n :
  digits (S w) n = digits w (n / 10) +:+ String (digit n) EmptyString.
Proof. reflexivity. Qed.

Lemma list_ascii_append s1 s2 :
  list_ascii_of_string (s1 +:+ s2)
  = list_ascii_of_string s1 ++ list_ascii_of_string s2.
Proof.
  induction s1 as [|c s1 IH]; [done|].
  rewrite append_cons. simpl. by rewrite IH.
Qed.

Lemma list_ascii_digits w n :
  length (list_ascii_of_string (digits w n)) = w /\
  forallb isDigit (list_ascii_of_string (digits w n)) = true.
Proof.
  revert n; induction w as [|w IH]; intros n; [done|].
  rewrite digits_S, list_ascii_append. destruct (IH (n / 10)) as [Hl Hd].
  split.
  - rewrite length_app, Hl. cbn [list_ascii_of_string length]. lia.
  - rewrite forallb_app, Hd. cbn [list_ascii_of_string forallb].
    by rewrite isDigit_digit.
Qed.

(** The rendering [ymd] always has the shape [dddd-dd-dd]. *)
Lemma isYMD_ymd t : isYMD (ymd t) = true.
Proof.
  unfold isYMD, ymd. rewrite !list_ascii_append.
  destruct (list_ascii_digits 4 (YearFromTime t)) as [Hl1 Hd1].
  destruct (list_ascii_digits 2 (MonthFromTime t + 1)) as [Hl2 Hd2].
  destruct (list_ascii_digits 2 (DateFromTime t)) as [Hl3 Hd3].
  destruct (list_ascii_of_string (digits 4 _))
    as [|y1 [|y2 [|y3 [|y4 [|? ?]]]]]; try discriminate Hl1.
  destruct (list_ascii_of_string (digits 2 (MonthFromTime t + 1)))
    as [|m1 [|m2 [|? ?]]]; try discriminate Hl2.
  destruct (list_ascii_of_string (digits 2 (DateFromTime t)))
    as [|d1 [|d2 [|? ?]]]; try discriminate Hl3.
  cbn [forallb app] in *.
  repeat match goal with
         | H : _ && _ = true |- _ => apply andb_true_iff in H as [? ?]
         end.
  change (list_ascii_of_string "-") with ["-"%char]. cbn [app].
  repeat match goal with
         | H : isDigit _ = true |- _ => rewrite H; clear H
         end.
  reflexivity.
Qed.

Lemma isoString_in_range t :
  0 <= YearFromTime t <= 9999 ->
  exists rest, isoString t = ymd t +:+ rest.
Proof.
  intros Hy. unfold isoString, isoYear, ymd.
  destruct (Z.leb_spec 0 (YearFromTime t)); [|lia].
  destruct (Z.leb_spec (YearFromTime t) 9999); [|lia]. cbn [andb].
  eexists. rewrite !append_assoc. reflexivity.
Qed.

Lemma length_ymd t : String.length (ymd t) = 10%nat.
Proof. unfold ymd. rewrite !length_append, !length_digits. reflexivity. Qed.

(** For a Date whose year has four digits, [getFriendlyDate] returns the
    rendering [YYYY-MM-DD]. *)
Lemma getFriendlyDate_in_range t :
  0 <= YearFromTime t <= 9999 ->
  getFriendlyDate (DateObj (Some t)) = Ok (ymd t).
Proof.
  intros Hy. destruct (isoString_in_range t Hy) as [rest Hrest].
  unfold getFriendlyDate, toISOString, substring_from_0.
  cbn [mbind Result_bind]. rewrite Hrest, <- (length_ymd t).
  by rewrite substring_0_append.
Qed.

(** The friendly date of the Date that [Date.UTC] makes for a calendar
    date shows that year, month and day. *)
Lemma getFriendlyDate_UTC year month date :
  100 <= year <= 9999 ->
  0 <= month <= 11 ->
  1 <= date <= DaysInMonth year month ->
  getFriendlyDate (DateObj (Some (UTC year month date)))
  = Ok (digits 4 year +:+ "-" +:+ digits 2 (month + 1) +:+ "-"
        +:+ digits 2 date).
Proof.
  intros Hy Hm Hd.
  destruct (MakeDay_roundtrip year month date Hm Hd) as (Hyear & Hmonth & Hdate).
  assert (UTC year month date = MakeDay year month date * msPerDay) as Hutc.
  { unfold UTC. destruct (Z.leb_spec 0 year); [|lia].
    destruct (Z.leb_spec year 99); [lia|]. reflexivity. }
  rewrite Hutc, getFriendlyDate_in_range by lia.
  unfold ymd. by rewrite Hyear, Hmonth, Hdate.
Qed.

Lemma getFriendlyDate_Ok v s :
  getFriendlyDate v = Ok s ->
  exists t, v = DateObj (Some t) /\ s = substring_from_0 10 (isoString t).
Proof.
  destruct v as [| | | | |[t|]|]; try discriminate.
  intros [= <-]. by exists t.
Qed.

(** The example of the specification: 11 August 2024. *)
Example friendly_2024_08_11 :
  getFriendlyDate (DateObj (Some (UTC 2024 7 11))) = Ok "2024-08-11"%string.
Proof. vm_compute. reflexivity. Qed.

(** ** The sort *)

Section SortFacts.
Context {A : Type} (comparefn : A -> A -> Z) (key : A -> Z).
Hypothesis order_key :
  forall x y, V8.order_lt comparefn x y = (key x <? key y).

Local Abbreviation asc := (ascending key).
Local Abbreviation rearr := (rearranged key).

Lemma order_key' x y : (comparefn x y <? 0) = (key x <? key y).
Proof. apply order_key. Qed.

Lemma rearranged_refl l : rearr l l.
Proof. split; [reflexivity | intros k; reflexivity]. Qed.

Lemma rearranged_trans l1 l2 l3 : rearr l1 l2 -> rearr l2 l3 -> rearr l1 l3.
Proof.
  intros [P1 K1] [P2 K2]; split; [etransitivity; eauto |].
  intros k. rewrite K2. apply K1.
Qed.

Lemma rearranged_app l1 l1' l2 l2' :
  rearr l1 l1' -> rearr l2 l2' -> rearr (l1 ++ l2) (l1' ++ l2').
Proof.
  intros [P1 K1] [P2 K2]; split.
  - by apply Permutation_app.
  - intros k. rewrite !filter_app. by rewrite K1, K2.
Qed.

Lemma ascending_cons x l :
  asc (x :: l) <-> asc l /\ Forall (fun y => key x <= key y) l.
Proof.
  split.
  - intros Hs. by apply StronglySorted_inv in Hs.
  - intros [? ?]. by constructor.
Qed.

Lemma ascending_app l1 l2 :
  asc (l1 ++ l2) <->
  asc l1 /\ asc l2 /\ Forall (fun x => Forall (fun y => key x <= key y) l2) l1.
Proof.
  induction l1 as [|x l1 IH]; simpl.
  - split; [intros; repeat split; auto; constructor | tauto].
  - rewrite !ascending_cons, IH, Forall_app, Forall_cons. tauto.
Qed.

(** *** Runs *)
Lemma run_tail_ascending previous work :
  asc (previous :: take (V8.run_tail comparefn false previous work) work).
Proof.
  revert previous; induction work as [|current work IH]; intros previous; simpl.
  - repeat constructor.
  - rewrite order_key. destruct (key current <? key previous) eqn:E; simpl.
    + repeat constructor.
    + apply Z.ltb_ge in E. specialize (IH current).
      apply ascending_cons in IH as IH'. destruct IH' as [_ Hall].
      apply ascending_cons; split; [exact IH|].
      constructor; [exact E|].
      eapply Forall_impl; [exact Hall|]. simpl; intros; lia.
Qed.

Local Abbreviation strictly_descending := (Spec.strictly_descending key).

Lemma run_tail_descending previous work :
  strictly_descending (previous :: take (V8.run_tail comparefn true previous work) work).
Proof.
  revert previous; induction work as [|current work IH]; intros previous; simpl.
  - repeat constructor.
  - rewrite order_key. destruct (key current <? key previous) eqn:E; simpl.
    + apply Z.ltb_lt in E. specialize (IH current).
      pose proof IH as IH'. apply StronglySorted_inv in IH' as [_ Hall].
      constructor; [exact IH|].
      constructor; [exact E|].
      eapply Forall_impl; [exact Hall|]. simpl; intros; lia.
    + repeat constructor.
Qed.

Lemma strictly_descending_filter l k :
  strictly_descending l -> (length (filter (fun x => key x = k) l) <= 1)%nat.
Proof.
  induction 1 as [|x l Hs IH Hall]; simpl; [lia|].
  rewrite filter_cons. destruct (decide (key x = k)) as [Hk|Hk]; [|exact IH].
  assert (filter (fun x => key x = k) l = []) as ->; [|simpl; lia].
  induction l as [|y l IHl]; [done|].
  apply Forall_cons in Hall as [Hy Hall].
  apply StronglySorted_inv in Hs as [Hs Hs'].
  rewrite filter_cons_False by lia.
  apply IHl; auto.
  intros. etransitivity; [|apply IH]. rewrite filter_cons_False by lia. done.
Qed.

Lemma strictly_descending_reverse l :
  strictly_descending l -> asc (reverse l) /\ rearr l (reverse l).
Proof.
  intros Hs. split; [|split].
  - induction Hs as [|x l Hs IH Hall]; [constructor|].
    rewrite reverse_cons. apply ascending_app. split; [exact IH|].
    split; [repeat constructor|].
    apply Forall_reverse. eapply Forall_impl; [exact Hall|].
    simpl. intros y Hy. repeat constructor. lia.
  - symmetry. apply reverse_Permutation.
  - intros k. rewrite filter_reverse.
    pose proof (strictly_descending_filter l k Hs) as Hlen.
    destruct (filter (fun x => key x = k) l) as [|a [|b t]]; simpl in *; try done; lia.
Qed.


Lemma run_tail_le d previous work :
  (V8.run_tail comparefn d previous work <= length work)%nat.
Proof.
  revert previous; induction work as [|c work IH]; intros previous; simpl; [lia|].
  destruct (Bool.eqb _ _); [specialize (IH c)|]; lia.
Qed.

Lemma CountAndMakeRun_spec work :
  let '(runLength, work') := V8.CountAndMakeRun comparefn work in
  (runLength <= length work)%nat /\
  (work <> [] -> 0 < runLength)%nat /\
  asc (take runLength work') /\
  rearr (take runLength work) (take runLength work') /\
  drop runLength work' = drop runLength work.
Proof.
  destruct work as [|elementHigh [|elementLow rest]]; simpl.
  - repeat split; try lia; try constructor; done.
  - repeat split; try lia; try (repeat constructor); done.
  - set (n := V8.run_tail comparefn _ elementLow rest).
    pose proof (run_tail_le (V8.order_lt comparefn elementLow elementHigh)
                  elementLow rest) as Hn. fold n in Hn.
    split; [lia|]. split; [lia|].
    destruct (V8.order_lt comparefn elementLow elementHigh) eqn:E;
      rewrite order_key in E.
    + apply Z.ltb_lt in E.
      assert (strictly_descending (elementHigh :: elementLow :: take n rest)) as Hd.
      { pose proof (run_tail_descending elementLow rest) as Hr.
        constructor; [exact Hr|].
        apply StronglySorted_inv in Hr as [_ Hall].
        constructor; [exact E|].
        eapply Forall_impl; [exact Hall|]. simpl; intros; lia. }
      apply strictly_descending_reverse in Hd as [Ha Hr].
      assert (length (reverse (elementHigh :: elementLow :: take n rest))
              = S (S n)) as Hlen.
      { rewrite length_reverse. simpl. rewrite length_take. lia. }
      change (elementHigh :: elementLow :: take n rest)
        with (take (S (S n)) (elementHigh :: elementLow :: rest)) in *.
      rewrite take_app_length' by (symmetry; exact Hlen).
      rewrite drop_app_length' by (symmetry; exact Hlen).
      split; [exact Ha|]. split; [exact Hr|]. reflexivity.
    + apply Z.ltb_ge in E.
      split; [| split; [apply rearranged_refl | reflexivity]].
      simpl. pose proof (run_tail_ascending elementLow rest) as Hr.
      apply ascending_cons; split; [exact Hr|].
      apply ascending_cons in Hr as [_ Hall].
      constructor; [exact E|].
      eapply Forall_impl; [exact Hall|]. simpl; intros; lia.
Qed.

(** *** Binary insertion *)
Lemma find_insertion_point_spec fuel pivot sorted left right :
  asc sorted ->
  (left <= right <= length sorted)%nat ->
  (right - left <= fuel)%nat ->
  Forall (fun x => key x <= key pivot) (take left sorted) ->
  Forall (fun x => key pivot < key x) (drop right sorted) ->
  let i := V8.find_insertion_point comparefn fuel pivot sorted left right in
  Forall (fun x => key x <= key pivot) (take i sorted) /\
  Forall (fun x => key pivot < key x) (drop i sorted).
Proof.
  intros Hs. revert left right.
  induction fuel as [|fuel IH]; intros left right Hlr Hfuel Hl Hr;
    cbn [V8.find_insertion_point]; cbv zeta.
  - assert (left = right) as -> by lia. done.
  - destruct (left <? right)%nat eqn:E.
    2:{ apply Nat.ltb_ge in E. assert (left = right) as -> by lia. done. }
    apply Nat.ltb_lt in E.
    set (mid := (left + (right - left) / 2)%nat).
    assert (left <= mid < right)%nat as Hmid.
    { assert ((right - left) / 2 < right - left)%nat
        by (apply Nat.div_lt; lia).
      unfold mid. lia. }
    destruct (sorted !! mid) as [x|] eqn:Hx.
    2:{ apply lookup_ge_None in Hx. lia. }
    pose proof (take_drop_middle _ _ _ Hx) as Hsplit.
    rewrite <- Hsplit in Hs.
    apply ascending_app in Hs as (_ & Hs2 & Hcross).
    apply ascending_cons in Hs2 as [_ Hafter].
    rewrite order_key. destruct (key pivot <? key x) eqn:Ek.
    + apply Z.ltb_lt in Ek. apply IH; try lia; try done.
      rewrite (drop_S _ _ _ Hx). constructor; [exact Ek|].
      eapply Forall_impl; [exact Hafter|]. simpl; intros; lia.
    + apply Z.ltb_ge in Ek. apply IH; try lia; try done.
      rewrite (take_S_r _ _ _ Hx). apply Forall_app; split.
      * eapply Forall_impl; [exact Hcross|]. simpl. intros y Hy.
        apply Forall_cons in Hy as [Hy _]. lia.
      * by repeat constructor.
Qed.

Lemma insert_pivot_spec pivot sorted i :
  asc sorted ->
  Forall (fun x => key x <= key pivot) (take i sorted) ->
  Forall (fun x => key pivot < key x) (drop i sorted) ->
  asc (take i sorted ++ pivot :: drop i sorted) /\
  rearr (sorted ++ [pivot]) (take i sorted ++ pivot :: drop i sorted).
Proof.
  intros Hs Hl Hr. rewrite <- (take_drop i sorted) in Hs.
  apply ascending_app in Hs as (Hs1 & Hs2 & Hcross).
  split; [|split].
  - apply ascending_app. split; [exact Hs1|]. split.
    + apply ascending_cons. split; [exact Hs2|].
      eapply Forall_impl; [exact Hr|]. simpl; intros; lia.
    + apply Forall_forall. intros x Hx. constructor.
      * rewrite Forall_forall in Hl. by apply Hl.
      * rewrite Forall_forall in Hcross. by apply Hcross.
  - rewrite <- (take_drop i sorted) at 1. rewrite <- app_assoc.
    apply Permutation_app_head. symmetry. apply Permutation_cons_append.
  - intros k. rewrite !filter_app, !filter_cons, filter_nil.
    replace (filter (fun x => key x = k) sorted)
      with (filter (fun x => key x = k) (take i sorted)
            ++ filter (fun x => key x = k) (drop i sorted))
      by (by rewrite <- filter_app, take_drop).
    destruct (decide (key pivot = k)) as [Hk|Hk]; [|by rewrite app_nil_r].
    assert (filter (fun x => key x = k) (drop i sorted) = []) as ->.
    { clear -Hr Hk. induction Hr as [|y l Hy Hr IH]; [done|].
      rewrite filter_cons_False by lia. exact IH. }
    by rewrite app_nil_r.
Qed.

Lemma BinaryInsertionSort_spec sorted todo :
  asc sorted ->
  asc (V8.BinaryInsertionSort comparefn sorted todo) /\
  rearr (sorted ++ todo) (V8.BinaryInsertionSort comparefn sorted todo).
Proof.
  revert sorted; induction todo as [|pivot todo IH]; intros sorted Hs; simpl.
  - rewrite app_nil_r. split; [exact Hs | apply rearranged_refl].
  - set (i := V8.find_insertion_point _ _ _ _ _ _).
    destruct (find_insertion_point_spec (length sorted) pivot sorted 0
                (length sorted) Hs) as [Hl Hr];
      [lia | lia | by rewrite take_0 | by rewrite drop_all |].
    fold i in Hl, Hr.
    destruct (insert_pivot_spec pivot sorted i Hs Hl Hr) as [Ha Hre].
    destruct (IH _ Ha) as [Ha' Hre']. split; [exact Ha'|].
    eapply rearranged_trans; [|exact Hre'].
    rewrite (cons_middle pivot sorted todo), app_assoc.
    apply rearranged_app; [exact Hre | apply rearranged_refl].
Qed.


(** *** Merging *)
Lemma Merge_nil_l b : V8.Merge comparefn [] b = b.
Proof. by destruct b. Qed.

Lemma Merge_nil_r a : V8.Merge comparefn a [] = a.
Proof. by destruct a. Qed.

Lemma Merge_cons_cons x a y b :
  V8.Merge comparefn (x :: a) (y :: b) =
  if V8.order_lt comparefn y x
  then y :: V8.Merge comparefn (x :: a) b
  else x :: V8.Merge comparefn a (y :: b).
Proof. reflexivity. Qed.

Lemma filter_key_above x l k :
  Forall (fun y => key x <= key y) l -> k < key x ->
  filter (fun y => key y = k) l = [].
Proof.
  induction 1 as [|y l Hy Hall IH]; intros Hk; [done|].
  rewrite filter_cons_False by lia. by apply IH.
Qed.

Lemma Merge_rearranged a b :
  asc a -> rearr (a ++ b) (V8.Merge comparefn a b).
Proof.
  revert b; induction a as [|x a IHa]; intros b Ha.
  - rewrite Merge_nil_l. apply rearranged_refl.
  - induction b as [|y b IHb].
    + rewrite Merge_nil_r, app_nil_r. apply rearranged_refl.
    + rewrite Merge_cons_cons, order_key.
      destruct (key y <? key x) eqn:E.
      * apply Z.ltb_lt in E. destruct IHb as [Hp Hk]. split.
        -- rewrite <- Hp. symmetry. apply Permutation_middle.
        -- intros k. rewrite filter_cons, Hk, !filter_app, (filter_cons _ y b).
           destruct (decide (key y = k)) as [<-|Hne]; [|done].
           apply ascending_cons in Ha as [_ Hall].
           rewrite (filter_key_above x (x :: a) (key y)); [done| |lia].
           constructor; [lia | exact Hall].
      * apply ascending_cons in Ha as [Ha _].
        destruct (IHa (y :: b) Ha) as [Hp Hk]. split.
        -- simpl. by constructor.
        -- intros k. simpl. rewrite !filter_cons, Hk. done.
Qed.

Lemma Merge_ascending a b :
  asc a -> asc b -> asc (V8.Merge comparefn a b).
Proof.
  revert b; induction a as [|x a IHa]; intros b Ha Hb.
  - by rewrite Merge_nil_l.
  - induction b as [|y b IHb].
    + by rewrite Merge_nil_r.
    + rewrite Merge_cons_cons, order_key.
      pose proof Ha as Ha'. pose proof Hb as Hb'.
      apply ascending_cons in Ha' as [Ha1 Ha2].
      apply ascending_cons in Hb' as [Hb1 Hb2].
      destruct (key y <? key x) eqn:E.
      * apply Z.ltb_lt in E. apply ascending_cons. split; [by apply IHb|].
        destruct (Merge_rearranged (x :: a) b Ha) as [Hp _].
        rewrite <- Hp. apply Forall_app. split; [|exact Hb2].
        constructor; [lia|].
        eapply Forall_impl; [exact Ha2|]. simpl; intros; lia.
      * apply Z.ltb_ge in E. apply ascending_cons. split; [by apply IHa|].
        destruct (Merge_rearranged a (y :: b) Ha1) as [Hp _].
        rewrite <- Hp. apply Forall_app. split; [exact Ha2|].
        constructor; [lia|].
        eapply Forall_impl; [exact Hb2|]. simpl; intros; lia.
Qed.

(** *** The stack of pending runs *)
Local Abbreviation runs_ok := (Spec.runs_ok key).

Lemma merge_top x y rest :
  runs_ok (x :: y :: rest) ->
  runs_ok (V8.Merge comparefn y x :: rest) /\
  rearr (concat (reverse (x :: y :: rest)))
        (concat (reverse (V8.Merge comparefn y x :: rest))) /\
  length (V8.Merge comparefn y x) = (length y + length x)%nat.
Proof.
  intros Hr. apply Forall_cons in Hr as [Hx Hr].
  apply Forall_cons in Hr as [Hy Hr].
  pose proof (Merge_rearranged y x Hy) as Hm.
  split; [|split].
  - constructor; [by apply Merge_ascending | exact Hr].
  - rewrite !reverse_cons, !concat_app. simpl. rewrite !app_nil_r, <- app_assoc.
    apply rearranged_app; [apply rearranged_refl | exact Hm].
  - destruct Hm as [Hp _]. apply Permutation_length in Hp.
    rewrite <- Hp. apply length_app.
Qed.

Lemma merge_below x y z rest :
  runs_ok (x :: y :: z :: rest) ->
  runs_ok (x :: V8.Merge comparefn z y :: rest) /\
  rearr (concat (reverse (x :: y :: z :: rest)))
        (concat (reverse (x :: V8.Merge comparefn z y :: rest))).
Proof.
  intros Hr. apply Forall_cons in Hr as [Hx Hr].
  destruct (merge_top y z rest Hr) as (Hok & Hre & _).
  split; [by constructor|].
  rewrite (reverse_cons _ x), (reverse_cons (_ :: rest) x), !concat_app.
  apply rearranged_app; [exact Hre | apply rearranged_refl].
Qed.

Lemma MergeForceCollapse_step_spec pending pending' :
  runs_ok pending ->
  V8.MergeForceCollapse_step comparefn pending = Some pending' ->
  runs_ok pending' /\
  rearr (concat (reverse pending)) (concat (reverse pending')) /\
  S (length pending') = length pending.
Proof.
  intros Hr. destruct pending as [|x [|y [|z rest]]]; simpl; try done.
  - intros [= <-]. destruct (merge_top x y [] Hr) as (? & ? & _). done.
  - destruct (length z <? length x)%nat; intros [= <-].
    + destruct (merge_below x y z rest Hr). done.
    + destruct (merge_top x y (z :: rest) Hr) as (? & ? & _). done.
Qed.

Lemma MergeCollapse_step_spec pending pending' :
  runs_ok pending ->
  V8.MergeCollapse_step comparefn pending = Some pending' ->
  runs_ok pending' /\
  rearr (concat (reverse pending)) (concat (reverse pending')).
Proof.
  intros Hr. destruct pending as [|x [|y rest]]; simpl; try done.
  destruct (negb _ || negb _).
  - destruct rest as [|z rest'].
    + intros [= <-]. destruct (merge_top x y [] Hr) as (? & ? & _). done.
    + destruct (length z <? length x)%nat; intros [= <-].
      * by apply merge_below.
      * destruct (merge_top x y (z :: rest') Hr) as (? & ? & _). done.
  - destruct (length y <=? length x)%nat; [|done].
    intros [= <-]. destruct (merge_top x y rest Hr) as (? & ? & _). done.
Qed.

Lemma MergeCollapse_spec fuel pending :
  runs_ok pending ->
  runs_ok (V8.MergeCollapse comparefn fuel pending) /\
  rearr (concat (reverse pending))
        (concat (reverse (V8.MergeCollapse comparefn fuel pending))).
Proof.
  revert pending; induction fuel as [|fuel IH]; intros pending Hr; simpl.
  - split; [done | apply rearranged_refl].
  - destruct (V8.MergeCollapse_step comparefn pending) as [pending'|] eqn:E.
    + destruct (MergeCollapse_step_spec _ _ Hr E) as [Hr' Hre].
      destruct (IH _ Hr') as [Hr'' Hre'']. split; [done|].
      eapply rearranged_trans; eauto.
    + split; [done | apply rearranged_refl].
Qed.

Lemma MergeForceCollapse_spec fuel pending :
  runs_ok pending ->
  (length pending <= fuel)%nat ->
  runs_ok (V8.MergeForceCollapse comparefn fuel pending) /\
  rearr (concat (reverse pending))
        (concat (reverse (V8.MergeForceCollapse comparefn fuel pending))) /\
  (length (V8.MergeForceCollapse comparefn fuel pending) <= 1)%nat.
Proof.
  revert pending; induction fuel as [|fuel IH]; intros pending Hr Hlen; simpl.
  - split; [done|]. split; [apply rearranged_refl | lia].
  - destruct (V8.MergeForceCollapse_step comparefn pending) as [pending'|] eqn:E.
    + destruct (MergeForceCollapse_step_spec _ _ Hr E) as (Hr' & Hre & Hl).
      destruct (IH _ Hr') as (Hr'' & Hre'' & Hl''); [lia|].
      split; [done|]. split; [|done].
      eapply rearranged_trans; eauto.
    + split; [done|]. split; [apply rearranged_refl|].
      destruct pending as [|x [|y [|z rest]]]; simpl in *; try lia; try done.
      destruct (length z <? length x)%nat; done.
Qed.

(** *** The main loop *)
Lemma next_run_spec minRunLength remaining :
  remaining <> [] ->
  let '(run, rest) := V8.next_run comparefn minRunLength remaining in
  asc run /\ rearr remaining (run ++ rest) /\
  (length rest < length remaining)%nat.
Proof.
  intros Hne. unfold V8.next_run.
  pose proof (CountAndMakeRun_spec remaining) as Hc.
  destruct (V8.CountAndMakeRun comparefn remaining) as [n work'].
  destruct Hc as (Hn & Hpos & Ha & Hre & Hd). specialize (Hpos Hne).
  assert (rearr remaining work') as Hw.
  { rewrite <- (take_drop n remaining), <- (take_drop n work'), Hd.
    apply rearranged_app; [exact Hre | apply rearranged_refl]. }
  assert (length work' = length remaining) as Hlen.
  { destruct Hw as [Hp _]. by apply Permutation_length in Hp. }
  destruct (n <? minRunLength)%nat eqn:E.
  - apply Nat.ltb_lt in E.
    set (forced := Nat.min minRunLength (length remaining)).
    assert (n <= forced)%nat as Hnf by (unfold forced; lia).
    destruct (BinaryInsertionSort_spec (take n work')
                (drop n (take forced work')) Ha) as [Ha' Hre'].
    assert (take n work' ++ drop n (take forced work') = take forced work') as Heq.
    { rewrite <- (take_drop n (take forced work')) at 2.
      f_equal. rewrite take_take. f_equal. lia. }
    rewrite Heq in Hre'.
    split; [exact Ha'|]. split.
    + eapply rearranged_trans; [exact Hw|].
      rewrite <- (take_drop forced work') at 1.
      apply rearranged_app; [exact Hre' | apply rearranged_refl].
    + rewrite length_drop. lia.
  - split; [exact Ha|]. split.
    + by rewrite take_drop.
    + rewrite length_drop. lia.
Qed.

Lemma collect_runs_spec fuel minRunLength pending remaining :
  runs_ok pending ->
  (length remaining <= fuel)%nat ->
  let pending' := V8.collect_runs comparefn fuel minRunLength pending remaining in
  runs_ok pending' /\
  rearr (concat (reverse pending) ++ remaining) (concat (reverse pending')).
Proof.
  revert pending remaining.
  induction fuel as [|fuel IH]; intros pending remaining Hr Hlen.
  - destruct remaining; [|simpl in Hlen; lia]. simpl.
    rewrite app_nil_r. split; [done | apply rearranged_refl].
  - destruct remaining as [|r0 remaining].
    { simpl. rewrite app_nil_r. split; [done | apply rearranged_refl]. }
    cbn [V8.collect_runs].
    pose proof (next_run_spec minRunLength (r0 :: remaining)) as Hn.
    destruct (V8.next_run comparefn minRunLength (r0 :: remaining)) as [run rest].
    destruct Hn as (Ha & Hre & Hl); [done|].
    assert (runs_ok (run :: pending)) as Hr1 by by constructor.
    destruct (MergeCollapse_spec (S (length pending)) _ Hr1) as [Hr2 Hre2].
    destruct (IH _ rest Hr2) as [Hr3 Hre3]; [simpl in *; lia|].
    split; [exact Hr3|].
    eapply rearranged_trans; [|exact Hre3].
    eapply rearranged_trans;
      [apply rearranged_app; [apply rearranged_refl | exact Hre]|].
    rewrite app_assoc. apply rearranged_app; [|apply rearranged_refl].
    eapply rearranged_trans; [|exact Hre2].
    rewrite reverse_cons, concat_app. simpl. rewrite app_nil_r.
    apply rearranged_refl.
Qed.

(** *** Loops and short arrays *)
Lemma length_Merge a b :
  length (V8.Merge comparefn a b) = (length a + length b)%nat.
Proof.
  revert b; induction a as [|x a IHa]; intros b.
  - by rewrite Merge_nil_l.
  - induction b as [|y b IHb].
    + rewrite Merge_nil_r. simpl. lia.
    + rewrite Merge_cons_cons.
      destruct (V8.order_lt comparefn y x); cbn [length].
      * rewrite IHb. cbn [length]. lia.
      * rewrite IHa. cbn [length]. lia.
Qed.

Lemma MergeCollapse_step_length pending pending' :
  V8.MergeCollapse_step comparefn pending = Some pending' ->
  S (length pending') = length pending.
Proof.
  destruct pending as [|x [|y rest]]; simpl; try done.
  destruct (negb _ || negb _).
  - destruct rest as [|z rest']; [by intros [= <-]|].
    destruct (length z <? length x)%nat; by intros [= <-].
  - destruct (length y <=? length x)%nat; [|done]. by intros [= <-].
Qed.

(** With the fuel it is given, the loop of [MergeCollapse] ends by its own
    test. *)
Lemma MergeCollapse_complete fuel pending :
  (length pending <= fuel)%nat ->
  V8.MergeCollapse_step comparefn (V8.MergeCollapse comparefn fuel pending)
  = None.
Proof.
  revert pending; induction fuel as [|fuel IH]; intros pending Hlen; simpl.
  - by destruct pending; [|simpl in Hlen; lia].
  - destruct (V8.MergeCollapse_step comparefn pending) as [pending'|] eqn:E;
      [|exact E].
    apply IH. apply MergeCollapse_step_length in E. lia.
Qed.

Lemma lor_land_1 r n : (r <= 1 -> Nat.lor r (Nat.land n 1) <= 1)%nat.
Proof.
  intros Hr.
  assert (Nat.land n 1 = n mod 2)%nat as -> by apply (Nat.land_ones n 1).
  assert (n mod 2 < 2)%nat as Hm by (apply Nat.mod_upper_bound; lia).
  destruct r as [|[|r]]; [| |lia];
    destruct (n mod 2)%nat as [|[|m]]; try lia; by vm_compute.
Qed.

(** The loop of [ComputeMinRunLength] ends with [n] below 64. *)
Lemma ComputeMinRunLength_loop_bound fuel n r :
  (n <= fuel -> r <= 1 ->
   V8.ComputeMinRunLength_loop fuel n r <= 64 /\
   (n < 64 -> V8.ComputeMinRunLength_loop fuel n r = n + r))%nat.
Proof.
  revert n r; induction fuel as [|fuel IH]; intros n r Hn Hr;
    cbn [V8.ComputeMinRunLength_loop].
  - split; lia.
  - destruct (64 <=? n)%nat eqn:E.
    + apply Nat.leb_le in E. split; [|lia].
      apply IH; [|by apply lor_land_1].
      pose proof (Nat.div_lt n 2). lia.
    + apply Nat.leb_gt in E. split; lia.
Qed.

Lemma ComputeMinRunLength_bound n :
  (V8.ComputeMinRunLength n <= 64 /\
   (n < 64 -> V8.ComputeMinRunLength n = n))%nat.
Proof.
  destruct (ComputeMinRunLength_loop_bound n n 0) as [H1 H2]; [lia | lia |].
  split; [exact H1|]. intros Hn. unfold V8.ComputeMinRunLength.
  rewrite (H2 Hn). lia.
Qed.

Lemma CountAndMakeRun_length work :
  let '(runLength, work') := V8.CountAndMakeRun comparefn work in
  (runLength <= length work)%nat /\ length work' = length work.
Proof.
  destruct work as [|elementHigh [|elementLow rest]]; simpl; [done | done |].
  pose proof (run_tail_le (V8.order_lt comparefn elementLow elementHigh)
                elementLow rest) as Hn.
  split; [lia|].
  destruct (V8.order_lt comparefn elementLow elementHigh); [|done].
  rewrite length_app, length_reverse. simpl.
  rewrite length_take, length_drop. lia.
Qed.

(** Below 64 elements the whole array is a single run: the sort is the
    detection of the run that starts the array followed by the binary
    insertion of the elements after it. *)
Lemma sort_short array :
  (length array < 64)%nat ->
  V8.sort comparefn array =
  let '(runLength, work) := V8.CountAndMakeRun comparefn array in
  V8.BinaryInsertionSort comparefn (take runLength work) (drop runLength work).
Proof.
  intros Hshort. unfold V8.sort, V8.ArrayTimSortImpl.
  destruct (length array <? 2)%nat eqn:E.
  - apply Nat.ltb_lt in E.
    destruct array as [|x [|y array]]; simpl in E; try lia; reflexivity.
  - apply Nat.ltb_ge in E.
    destruct (ComputeMinRunLength_bound (length array)) as [_ ->]; [|lia].
    destruct array as [|x array]; [simpl in E; lia|].
    cbn [length V8.collect_runs]. unfold V8.next_run.
    pose proof (CountAndMakeRun_length (x :: array)) as Hc.
    destruct (V8.CountAndMakeRun comparefn (x :: array)) as [n work].
    destruct Hc as [Hn Hlen]. cbn [length] in *.
    rewrite Nat.min_id.
    assert (forall run,
               concat (reverse (V8.MergeForceCollapse comparefn
                 (length (V8.collect_runs comparefn (length array)
                    (S (length array))
                    (V8.MergeCollapse comparefn 1 [run]) []))
                 (V8.collect_runs comparefn (length array) (S (length array))
                    (V8.MergeCollapse comparefn 1 [run]) []))) = run) as Hone.
    { intros run. destruct (length array); simpl; by rewrite app_nil_r. }
    destruct (n <? S (length array))%nat eqn:En.
    + rewrite (drop_ge work (S (length array))) by lia.
      etransitivity; [apply Hone|].
      by rewrite (take_ge work (S (length array))) by lia.
    + apply Nat.ltb_ge in En. rewrite (drop_ge work n) by lia.
      etransitivity; [apply Hone|]. reflexivity.
Qed.

(** *** The result *)
Theorem sort_spec array :
  asc (V8.sort comparefn array) /\ rearr array (V8.sort comparefn array).
Proof.
  unfold V8.sort, V8.ArrayTimSortImpl.
  destruct (length array <? 2)%nat eqn:E.
  - split; [|apply rearranged_refl].
    apply Nat.ltb_lt in E.
    destruct array as [|x [|y array]]; simpl in E; try lia; repeat constructor.
  - set (pending := V8.collect_runs _ _ _ _ _).
    destruct (collect_runs_spec (length array)
                (V8.ComputeMinRunLength (length array)) [] array)
      as [Hr Hre]; [constructor | lia |].
    fold pending in Hr, Hre. simpl in Hre.
    destruct (MergeForceCollapse_spec (length pending) pending Hr)
      as (Hr' & Hre' & Hl); [lia|].
    split; [|eapply rearranged_trans; eauto].
    destruct (V8.MergeForceCollapse comparefn (length pending) pending)
      as [|run [|? ?]]; simpl in Hl; try lia.
    + constructor.
    + apply Forall_cons in Hr' as [Hrun _].
      simpl. by rewrite app_nil_r.
Qed.
(** A list in ascending order is determined by its elements and the order
    among those with equal keys. *)
Lemma ascending_unique (l1 l2 : list A) :
  asc l1 -> asc l2 ->
  Permutation l1 l2 -> Spec.keeps_ties key l1 l2 ->
  l1 = l2.
Proof.
  revert l2; induction l1 as [|x l1 IH]; intros l2 H1 H2 Hp Hk.
  - by apply Permutation_nil in Hp.
  - destruct l2 as [|y l2]; [by apply Permutation_sym, Permutation_nil in Hp|].
    apply StronglySorted_inv in H1 as [H1 Hx].
    apply StronglySorted_inv in H2 as [H2 Hy].
    assert (key x = key y) as Hxy.
    { assert (x ∈ y :: l2) as Hin1 by (rewrite <- Hp; left).
      assert (y ∈ x :: l1) as Hin2 by (rewrite Hp; left).
      rewrite Forall_forall in Hx, Hy.
      apply elem_of_cons in Hin1 as [->|Hin1]; [done|].
      apply elem_of_cons in Hin2 as [->|Hin2]; [done|].
      specialize (Hx _ Hin2). specialize (Hy _ Hin1). lia. }
    assert (x = y) as <-.
    { specialize (Hk (key x)).
      rewrite (filter_cons_True _ x) in Hk by done.
      rewrite (filter_cons_True _ y) in Hk by done.
      congruence. }
    f_equal. apply IH; try done.
    + by apply Permutation_cons_inv in Hp.
    + intros k. specialize (Hk k). rewrite !filter_cons in Hk.
      destruct (decide (key x = k)); congruence.
Qed.

(** The list that [sort] returns is the only one that is in order and
    keeps equal keys in place: a merge that gallops, or any other schedule
    of comparisons with the same outcome for each of them, ends with this
    very list. *)
Corollary sort_unique array sorted :
  asc sorted -> rearr array sorted -> V8.sort comparefn array = sorted.
Proof.
  intros Ha [Hp Hk]. destruct (sort_spec array) as [Ha' [Hp' Hk']].
  apply ascending_unique; [done | done | |].
  - by rewrite <- Hp', Hp.
  - intros k. by rewrite Hk, Hk'.
Qed.
End SortFacts.

(** ** The post repository *)

Section ApiFacts.
Context `{Imports}.
Implicit Types (fs : gmap string Entry) (p post : Post).

Lemma bind_Ok {A B} (r : Result A) (f : A -> Result B) b :
  r ≫= f = Ok b <-> exists a, r = Ok a /\ f a = Ok b.
Proof.
  destruct r as [a|e]; simpl.
  - split; [by exists a | by intros (? & [= <-] & ?)].
  - split; [done | by intros (? & ? & ?)].
Qed.

Lemma bind_Throw {A B} (r : Result A) (f : A -> Result B) e :
  r = Throw e -> r ≫= f = Throw e.
Proof. by intros ->. Qed.

(** What a successful [getPostFromSlug] has done. *)
Lemma getPostFromSlug_Ok fs slug0 p :
  getPostFromSlug fs slug0 = Ok p <->
  exists fileContents data content0 tv html,
    readFileSync fs (getFilepathFromSlug slug0) = Ok fileContents /\
    matter fileContents = Ok (data, content0) /\
    prop data "date" = DateObj (Some tv) /\
    markdownToHtml content0 = Ok html /\
    p = {| title := prop data "title";
           date := tv;
           slug := slug0;
           friendlyDate := JsString.substring_from_0 10 (JsDate.isoString tv);
           content := content0;
           contentHtml := html |}.
Proof.
  unfold getPostFromSlug. split.
  - intros Hp.
    apply bind_Ok in Hp as (fileContents & Hread & Hp).
    apply bind_Ok in Hp as ([data content0] & Hmatter & Hp).
    apply bind_Ok in Hp as (friendly & Hfriendly & Hp).
    apply bind_Ok in Hp as (html & Hhtml & Hp).
    apply getFriendlyDate_Ok in Hfriendly as (tv & Hdate & ->).
    rewrite Hdate in Hp. injection Hp as <-.
    by exists fileContents, data, content0, tv, html.
  - intros (fileContents & data & content0 & tv & html & -> & Hm & Hd & Hh & ->).
    simpl. rewrite Hm. simpl. rewrite Hd. simpl. rewrite Hh. reflexivity.
Qed.

Lemma fetchPosts_Ok fs filenames posts fetched :
  fetchPosts fs filenames posts = Ok fetched <->
  exists new,
    Forall2 (fun f p => getPostFromFilename fs f = Ok p) filenames new /\
    fetched = posts ++ new.
Proof.
  revert posts; induction filenames as [|f filenames IH]; intros posts; simpl.
  - split.
    + intros [= <-]. exists []. split; [constructor | by rewrite app_nil_r].
    + intros (new & Hnew & ->). apply Forall2_nil_inv_l in Hnew as ->.
      by rewrite app_nil_r.
  - rewrite bind_Ok. split.
    + intros (p & Hp & Hrest). apply IH in Hrest as (new & Hnew & ->).
      exists (p :: new). split; [by constructor|].
      by rewrite <- app_assoc.
    + intros (new & Hnew & ->).
      apply Forall2_cons_inv_l in Hnew as (p & new' & Hp & Hnew & ->).
      exists p. split; [done|]. apply IH. exists new'.
      split; [done|]. by rewrite <- app_assoc.
Qed.

Lemma fetchPosts_Throw fs before f after posts e :
  Forall (fun g => is_Ok (getPostFromFilename fs g) = true) before ->
  getPostFromFilename fs f = Throw e ->
  fetchPosts fs (before ++ f :: after) posts = Throw e.
Proof.
  intros Hbefore Hf. revert posts.
  induction Hbefore as [|g before Hg _ IH]; intros posts; simpl.
  - by rewrite Hf.
  - destruct (getPostFromFilename fs g); [|done]. simpl. apply IH.
Qed.

Lemma getAllPosts_Ok fs sorted :
  getAllPosts fs = Ok sorted <->
  exists filenames enumerated,
    readdirSync fs postsDirectory = Ok filenames /\
    Forall2 (fun f p => getPostFromFilename fs f = Ok p) filenames enumerated /\
    sorted = V8.sort comparePosts enumerated.
Proof.
  unfold getAllPosts. rewrite bind_Ok. split.
  - intros (filenames & Hdir & Hrest).
    apply bind_Ok in Hrest as (posts & Hposts & [= <-]).
    apply fetchPosts_Ok in Hposts as (new & Hnew & ->).
    by exists filenames, new.
  - intros (filenames & enumerated & Hdir & Hall & ->).
    exists filenames. split; [done|]. apply bind_Ok.
    exists enumerated. split; [|done].
    apply fetchPosts_Ok. by exists enumerated.
Qed.

Lemma comparePosts_key post1 post2 :
  V8.order_lt comparePosts post1 post2
  = (- date post1 <? - date post2).
Proof.
  unfold V8.order_lt, comparePosts.
  destruct (Z.gtb_spec (date post1) (date post2));
    destruct (Z.ltb_spec (- date post1) (- date post2)); simpl; lia.
Qed.

Lemma sort_comparePosts posts :
  ascending (fun p => - date p) (V8.sort comparePosts posts) /\
  rearranged (fun p => - date p) posts (V8.sort comparePosts posts).
Proof. apply sort_spec, comparePosts_key. Qed.

Lemma ascending_date_descending posts :
  ascending (fun p => - date p) posts -> date_descending posts.
Proof.
  intros Hs i p1 p2 H1 H2.
  rewrite <- (take_drop_middle _ _ _ H1) in Hs.
  apply ascending_app in Hs as (_ & Hs & _).
  apply ascending_cons in Hs as [_ Hall].
  rewrite (drop_S _ _ _ H2) in Hall.
  apply Forall_cons in Hall as [Hle _]. lia.
Qed.

Lemma rearranged_ties_in_order enumerated sorted :
  rearranged (fun p => - date p) enumerated sorted ->
  ties_in_order enumerated sorted.
Proof.
  intros [_ Hk] d. specialize (Hk (- d)).
  assert (forall l : list Post,
             filter (fun p => date p = d) l
             = filter (fun p => - date p = - d) l) as Hf.
  { intros l. apply list_filter_iff. intros; lia. }
  by rewrite !Hf.
Qed.
End ApiFacts.

(** ** The claims of the specification *)

(** The comparator of [getAllPosts] never answers zero, not even for a
    post compared with itself: what [sort] makes of equal dates is decided
    by the way the engine calls it. *)
Lemma comparePosts_never_zero (post1 post2 : Post) :
  comparePosts post1 post2 <> 0.
Proof. unfold comparePosts. by destruct (date post1 >? date post2). Qed.

Lemma sort_two {A : Type} (comparefn : A -> A -> Z) (x y : A) :
  V8.sort comparefn [x; y]
  = if V8.order_lt comparefn y x then [y; x] else [x; y].
Proof.
  unfold V8.sort, V8.ArrayTimSortImpl, V8.order_lt. cbn.
  unfold V8.order_lt. destruct (comparefn y x <? 0) eqn:E; cbn; reflexivity.
Qed.

(** C1.  Whatever the posts directory holds, the list that [getAllPosts]
    returns is in descending order of date: every adjacent pair
    [(p1, p2)] has [p1.date >= p2.date]; [getAllPosts] does return a list,
    made of the fetched posts, whenever the directory can be listed and
    every entry can be fetched; and for a directory with exactly the two
    files [a.md], dated 2024-01-02, and [b.md], dated 2024-01-01, listed in
    either order, it returns the post of [a.md] followed by the post of
    [b.md]. *)
Theorem getAllPosts_sorted_by_date `{Imports} (fs : gmap string Entry) :
  (forall posts, getAllPosts fs = Ok posts -> date_descending posts) /\
  (forall filenames enumerated,
      readdirSync fs postsDirectory = Ok filenames ->
      Forall2 (fun f p => getPostFromFilename fs f = Ok p) filenames enumerated ->
      exists posts,
        getAllPosts fs = Ok posts /\ Permutation enumerated posts) /\
  (forall listing a b,
      readdirSync fs postsDirectory = Ok listing ->
      listing = ["a.md"; "b.md"]%string \/ listing = ["b.md"; "a.md"]%string ->
      getPostFromSlug fs "a" = Ok a ->
      getPostFromSlug fs "b" = Ok b ->
      date a = JsDate.UTC 2024 0 2 ->
      date b = JsDate.UTC 2024 0 1 ->
      getAllPosts fs = Ok [a; b]).
Proof.
  split; [|split].
  - intros posts Hposts.
    apply getAllPosts_Ok in Hposts as (filenames & enumerated & _ & _ & ->).
    apply ascending_date_descending, sort_comparePosts.
  - intros filenames enumerated Hdir Hall.
    exists (V8.sort comparePosts enumerated). split.
    + apply getAllPosts_Ok. by exists filenames, enumerated.
    + apply sort_comparePosts.
  - intros listing a b Hdir Hlisting Ha Hb Hda Hdb.
    apply getAllPosts_Ok.
    destruct Hlisting as [-> | ->].
    + exists ["a.md"; "b.md"]%string, [a; b]. split; [done|]. split.
      * repeat constructor; assumption.
      * rewrite sort_two. unfold V8.order_lt, comparePosts.
        rewrite Hda, Hdb. reflexivity.
    + exists ["b.md"; "a.md"]%string, [b; a]. split; [done|]. split.
      * repeat constructor; assumption.
      * rewrite sort_two. unfold V8.order_lt, comparePosts.
        rewrite Hda, Hdb. reflexivity.
Qed.

Lemma getAllPosts_sorted_by_date_witness :
  @getAllPosts Site.imports (Site.two_posts ["b.md"; "a.md"]%string)
  = Ok [Site.post_a; Site.post_b]
  /\ date_descending [Site.post_a; Site.post_b].
Proof.
  destruct (@getAllPosts_sorted_by_date Site.imports
              (Site.two_posts ["b.md"; "a.md"]%string))
    as (Hsorted & _ & Htwo).
  assert (@getAllPosts Site.imports (Site.two_posts ["b.md"; "a.md"]%string)
          = Ok [Site.post_a; Site.post_b]) as Hall.
  { apply (Htwo ["b.md"; "a.md"]%string).
    - vm_compute. reflexivity.
    - right. reflexivity.
    - vm_compute. reflexivity.
    - vm_compute. reflexivity.
    - vm_compute. reflexivity.
    - vm_compute. reflexivity. }
  split; [exact Hall|]. apply Hsorted. exact Hall.
Defined.

(** C2.  Posts with equal dates keep, in the list that [getAllPosts]
    returns, the relative order in which the directory listing enumerates
    them: the result holds the posts fetched for the entries of the
    listing, and for every date, the posts of that date appear in the
    result in the order of the listing. *)
Theorem getAllPosts_ties_stable `{Imports} (fs : gmap string Entry)
    (filenames : list string) (sorted : list Post) :
  readdirSync fs postsDirectory = Ok filenames ->
  getAllPosts fs = Ok sorted ->
  exists enumerated,
    Forall2 (fun f p => getPostFromFilename fs f = Ok p) filenames enumerated /\
    Permutation enumerated sorted /\
    ties_in_order enumerated sorted.
Proof.
  intros Hdir Hposts.
  apply getAllPosts_Ok in Hposts as (filenames' & enumerated & Hdir' & Hall & ->).
  rewrite Hdir in Hdir'. injection Hdir' as <-.
  exists enumerated. split; [exact Hall|]. split.
  - apply sort_comparePosts.
  - apply rearranged_ties_in_order, sort_comparePosts.
Qed.

Lemma getAllPosts_ties_stable_witness :
  exists enumerated,
    Forall2 (fun f p => @getPostFromFilename Site.imports Site.tied_posts f = Ok p)
      ["x.md"; "new.md"; "y.md"]%string enumerated /\
    Permutation enumerated [Site.post_new; Site.post_x; Site.post_y] /\
    ties_in_order enumerated [Site.post_new; Site.post_x; Site.post_y].
Proof.
  apply (@getAllPosts_ties_stable Site.imports Site.tied_posts).
  - vm_compute. reflexivity.
  - vm_compute. reflexivity.
Defined.

Example tied_posts_order :
  @getAllPosts Site.imports Site.tied_posts
  = Ok [Site.post_new; Site.post_x; Site.post_y].
Proof. vm_compute. reflexivity. Qed.

(** C3, as stated, fails on a filename without the extension: [notes.txt]
    maps to the slug [notes.txt], and back to [notes.txt.md]. *)
Lemma filename_roundtrip_fails_without_md :
  getFilenameFromSlug (getSlugFromFilename "notes.txt") = "notes.txt.md"%string
  /\ getFilenameFromSlug (getSlugFromFilename "notes.txt") <> "notes.txt"%string.
Proof. split; [reflexivity | discriminate]. Qed.

(** C3, amended.  For every filename [f] that ends in [.md],
    [getFilenameFromSlug (getSlugFromFilename f) = f]; and for every slug
    [s], [getSlugFromFilename (getFilenameFromSlug s) = s]. *)
Theorem slug_filename_roundtrip :
  (forall filename,
      JsString.endsWith filename ".md" = true ->
      getFilenameFromSlug (getSlugFromFilename filename) = filename) /\
  (forall slug, getSlugFromFilename (getFilenameFromSlug slug) = slug).
Proof.
  unfold getFilenameFromSlug, getSlugFromFilename. split.
  - intros filename Hmd. apply endsWith_split in Hmd as [s ->].
    by rewrite replace_md_at_end_append.
  - intros s. apply replace_md_at_end_append.
Qed.

Lemma slug_filename_roundtrip_witness :
  getFilenameFromSlug (getSlugFromFilename "small-sw-tips-1.md")
  = "small-sw-tips-1.md"%string
  /\ getSlugFromFilename (getFilenameFromSlug "small-sw-tips-1")
     = "small-sw-tips-1"%string.
Proof.
  destruct slug_filename_roundtrip as [Hfile Hslug]. split.
  - apply Hfile. reflexivity.
  - apply Hslug.
Defined.

(** C4, as stated, fails on a file whose front matter has a date and no
    title: [getPostFromSlug] returns a record, and its title is
    [undefined]. *)
Lemma post_without_title_is_returned :
  exists fileContents data body p,
    readFileSync Site.untitled (@getFilepathFromSlug Site.imports "untitled")
    = Ok fileContents
    /\ @matter Site.imports fileContents = Ok (data, body)
    /\ data !! "title"%string = None
    /\ @getPostFromSlug Site.imports Site.untitled "untitled" = Ok p
    /\ title p = Undefined.
Proof.
  eexists _, _, _, _. split; [vm_compute; reflexivity|].
  split; [vm_compute; reflexivity|].
  split; [vm_compute; reflexivity|].
  split; [vm_compute; reflexivity|]. reflexivity.
Qed.

(** C4, amended.  For a file whose front matter lacks [date],
    [getPostFromSlug] fails, with the [TypeError] raised when the date is
    formatted, and returns no record.  A missing [title] is not an error:
    when the date is a valid Date and the body renders, the record is
    returned with an [undefined] title. *)
Theorem getPostFromSlug_missing_field `{Imports} (fs : gmap string Entry)
    (slug0 fileContents : string) (data : gmap string Value) (body : string) :
  readFileSync fs (getFilepathFromSlug slug0) = Ok fileContents ->
  matter fileContents = Ok (data, body) ->
  (data !! "date"%string = None ->
   getPostFromSlug fs slug0 = Throw TypeError) /\
  (data !! "title"%string = None ->
   forall tv html,
     data !! "date"%string = Some (DateObj (Some tv)) ->
     markdownToHtml body = Ok html ->
     exists p, getPostFromSlug fs slug0 = Ok p /\ title p = Undefined).
Proof.
  intros Hread Hmatter. split.
  - intros Hdate. unfold getPostFromSlug. rewrite Hread. simpl.
    rewrite Hmatter. simpl. unfold prop. rewrite Hdate. reflexivity.
  - intros Htitle tv html Hdate Hhtml. eexists. split.
    + apply getPostFromSlug_Ok. exists fileContents, data, body, tv, html.
      repeat split; try done. unfold prop. by rewrite Hdate.
    + simpl. unfold prop. by rewrite Htitle.
Qed.

Lemma getPostFromSlug_missing_field_witness :
  @getPostFromSlug Site.imports Site.undated "undated" = Throw TypeError
  /\ exists p,
       @getPostFromSlug Site.imports Site.untitled "untitled" = Ok p
       /\ title p = Undefined.
Proof.
  split.
  - eapply (@getPostFromSlug_missing_field Site.imports Site.undated "undated").
    + vm_compute. reflexivity.
    + vm_compute. reflexivity.
    + vm_compute. reflexivity.
  - eapply (@getPostFromSlug_missing_field Site.imports Site.untitled "untitled").
    + vm_compute. reflexivity.
    + vm_compute. reflexivity.
    + vm_compute. reflexivity.
    + vm_compute. reflexivity.
    + vm_compute. reflexivity.
Defined.

(** C5.  For a slug whose path names nothing in the file system,
    [getPostFromSlug] fails with the file-not-found error of [readFileSync]
    and returns no record. *)
Theorem getPostFromSlug_missing_file `{Imports} (fs : gmap string Entry)
    (slug0 : string) :
  fs !! getFilepathFromSlug slug0 = None ->
  getPostFromSlug fs slug0 = Throw ENOENT.
Proof.
  intros Hnone. unfold getPostFromSlug, readFileSync. by rewrite Hnone.
Qed.

Lemma getPostFromSlug_missing_file_witness :
  @getPostFromSlug Site.imports Site.with_notes "missing-slug" = Throw ENOENT.
Proof.
  apply (@getPostFromSlug_missing_file Site.imports). vm_compute. reflexivity.
Defined.

(** When the path names a directory, the failure is the one of a read of
    a directory. *)
Lemma getPostFromSlug_on_directory `{Imports} (fs : gmap string Entry)
    (slug0 : string) (entries : list string) :
  fs !! getFilepathFromSlug slug0 = Some (Directory entries) ->
  getPostFromSlug fs slug0 = Throw EISDIR.
Proof.
  intros Hdir. unfold getPostFromSlug, readFileSync. by rewrite Hdir.
Qed.

(** C6.  When the fetch of a post fails inside [getAllPosts], the entries
    before it having been fetched, [getAllPosts] fails with that very
    error; and whenever some entry of the directory cannot be fetched,
    [getAllPosts] fails and returns no list, not even of the posts fetched
    so far. *)
Theorem getAllPosts_fails_with_fetch `{Imports} (fs : gmap string Entry)
    (filenames : list string) :
  readdirSync fs postsDirectory = Ok filenames ->
  (forall before f after e,
      filenames = before ++ f :: after ->
      Forall (fun g => is_Ok (getPostFromFilename fs g) = true) before ->
      getPostFromFilename fs f = Throw e ->
      getAllPosts fs = Throw e) /\
  (forall f e,
      f ∈ filenames ->
      getPostFromFilename fs f = Throw e ->
      exists e', getAllPosts fs = Throw e').
Proof.
  intros Hdir. split.
  - intros before f after e -> Hbefore Hf.
    unfold getAllPosts. rewrite Hdir. simpl.
    by rewrite (fetchPosts_Throw fs before f after [] e Hbefore Hf).
  - intros f e Hin Hf.
    destruct (getAllPosts fs) as [posts|e'] eqn:Hall; [|by exists e'].
    apply getAllPosts_Ok in Hall as (filenames' & enumerated & Hdir' & Hall & _).
    rewrite Hdir in Hdir'. injection Hdir' as <-.
    apply list_elem_of_lookup in Hin as [i Hi].
    destruct (Forall2_lookup_l _ _ _ _ _ Hall Hi) as (p & _ & Hp).
    congruence.
Qed.

Lemma getAllPosts_fails_with_fetch_witness :
  @getAllPosts Site.imports Site.undated = Throw TypeError.
Proof.
  destruct (@getAllPosts_fails_with_fetch Site.imports Site.undated
              ["a.md"; "undated.md"; "b.md"]%string) as [Hfirst _].
  - vm_compute. reflexivity.
  - apply (Hfirst ["a.md"%string] "undated.md"%string ["b.md"%string]).
    + reflexivity.
    + repeat constructor.
    + vm_compute. reflexivity.
Defined.

(** The friendly date is a function of the date alone: two records with
    equal dates have equal friendly dates, whatever files they come from. *)
Lemma friendlyDate_of_date `{Imports} (fs1 fs2 : gmap string Entry)
    (slug1 slug2 : string) (p1 p2 : Post) :
  getPostFromSlug fs1 slug1 = Ok p1 ->
  getPostFromSlug fs2 slug2 = Ok p2 ->
  date p1 = date p2 ->
  friendlyDate p1 = friendlyDate p2.
Proof.
  intros H1 H2 Hdate.
  apply getPostFromSlug_Ok in H1 as (? & ? & ? & t1 & ? & _ & _ & _ & _ & ->).
  apply getPostFromSlug_Ok in H2 as (? & ? & ? & t2 & ? & _ & _ & _ & _ & ->).
  simpl in *. by subst t2.
Qed.

(** For a date whose year lies between 0000 and 9999 the friendly date of
    a record is the rendering [YYYY-MM-DD] of its date. *)
Lemma friendlyDate_in_range `{Imports} (fs : gmap string Entry)
    (slug0 : string) (p : Post) :
  getPostFromSlug fs slug0 = Ok p ->
  0 <= YearFromTime (date p) <= 9999 ->
  friendlyDate p = ymd (date p) /\ isYMD (friendlyDate p) = true.
Proof.
  intros Hp Hyear.
  apply getPostFromSlug_Ok in Hp as (? & ? & ? & tv & ? & _ & _ & _ & _ & ->).
  simpl in *.
  pose proof (getFriendlyDate_in_range tv Hyear) as Hf.
  unfold getFriendlyDate, toISOString in Hf. cbn [mbind Result_bind] in Hf.
  injection Hf as ->. split; [reflexivity | apply isYMD_ymd].
Qed.

(** C7.  The claim fails on a Date past the year 9999.  For the first
    instant of the year 10000, [toISOString] uses the expanded year, and
    the first ten characters of it are [+010000-01]: a sign, six digits
    of year and the month, no day, which is not of the form [YYYY-MM-DD]
    that the comment of [getFriendlyDate] announces.  A post dated
    [9999-12-32] in its front matter reaches this case. *)
Theorem getFriendlyDate_year_10000 :
  YearFromTime 253402300800000 = 10000
  /\ getFriendlyDate (DateObj (Some 253402300800000)) = Ok "+010000-01"%string
  /\ isYMD "+010000-01" = false
  /\ @getPostFromSlug Site.imports Site.far_future "far"
     = Ok (Site.record "far" "Far" 253402300800000 "+010000-01" "far").
Proof. repeat split; vm_compute; reflexivity. Qed.

(** C9.  [getAllSlugs] does not filter by file type: it yields one slug
    for every entry of the directory, in the order of the listing, which
    is the entry with a single trailing [.md] removed when present and the
    entry itself otherwise; and [getAllPosts] fetches every entry under
    that slug, so that the list it returns holds one post for each entry
    of the directory, markdown or not. *)
Theorem getAllSlugs_every_entry `{Imports} (fs : gmap string Entry)
    (filenames : list string) :
  readdirSync fs postsDirectory = Ok filenames ->
  getAllSlugs fs = Ok (map without_md filenames) /\
  (forall posts,
      getAllPosts fs = Ok posts ->
      exists enumerated,
        Forall2 (fun f p => getPostFromSlug fs (without_md f) = Ok p
                            /\ slug p = without_md f) filenames enumerated /\
        Permutation enumerated posts).
Proof.
  intros Hdir. split.
  - unfold getAllSlugs. rewrite Hdir. simpl. f_equal.
    apply map_ext. intros f. symmetry. apply without_md_replace.
  - intros posts Hposts.
    apply getAllPosts_Ok in Hposts as (filenames' & enumerated & Hdir' & Hall & ->).
    rewrite Hdir in Hdir'. injection Hdir' as <-.
    exists enumerated. split; [|apply sort_comparePosts].
    eapply Forall2_impl; [exact Hall|]. simpl. intros f p Hp.
    unfold getPostFromFilename, getSlugFromFilename in Hp.
    rewrite <- without_md_replace in Hp. split; [exact Hp|].
    apply getPostFromSlug_Ok in Hp as (? & ? & ? & ? & ? & _ & _ & _ & _ & ->).
    reflexivity.
Qed.

Lemma getAllSlugs_every_entry_witness :
  @getAllSlugs Site.imports Site.with_notes = Ok ["a"; "notes.txt"]%string
  /\ exists enumerated,
       Forall2 (fun f p =>
                  @getPostFromSlug Site.imports
                    (Site.two_posts ["b.md"; "a.md"]%string) (without_md f) = Ok p
                  /\ slug p = without_md f)
         ["b.md"; "a.md"]%string enumerated
       /\ Permutation enumerated [Site.post_a; Site.post_b].
Proof.
  split.
  - apply (@getAllSlugs_every_entry Site.imports Site.with_notes
             ["a.md"; "notes.txt"]%string).
    vm_compute. reflexivity.
  - apply (@getAllSlugs_every_entry Site.imports
             (Site.two_posts ["b.md"; "a.md"]%string)
             ["b.md"; "a.md"]%string).
    + vm_compute. reflexivity.
    + vm_compute. reflexivity.
Defined.

(** The file [notes.txt] is fetched like a post: [getAllPosts] looks for
    [notes.txt.md], which does not exist. *)
Example with_notes_is_fetched :
  @getAllPosts Site.imports Site.with_notes = Throw ENOENT.
Proof. vm_compute. reflexivity. Qed.

(** C10.  When [getPostFromSlug] succeeds for a slug, the record it
    returns has that slug; its content is the text that [matter] finds
    below the front matter of the file read for the slug; and its
    [contentHtml] is the result of [markdownToHtml] on that content. *)
Theorem getPostFromSlug_fields `{Imports} (fs : gmap string Entry)
    (slug0 : string) (p : Post) :
  getPostFromSlug fs slug0 = Ok p ->
  slug p = slug0 /\
  exists fileContents data,
    readFileSync fs (getFilepathFromSlug slug0) = Ok fileContents /\
    matter fileContents = Ok (data, content p) /\
    markdownToHtml (content p) = Ok (contentHtml p).
Proof.
  intros Hp.
  apply getPostFromSlug_Ok in Hp
    as (fileContents & data & c & tv & html & Hread & Hmatter & _ & Hhtml & ->).
  simpl. split; [reflexivity|]. by exists fileContents, data.
Qed.

Lemma getPostFromSlug_fields_witness :
  slug Site.post_a = "a"%string /\
  exists fileContents data,
    readFileSync (Site.two_posts ["a.md"; "b.md"]%string)
      (@getFilepathFromSlug Site.imports "a") = Ok fileContents /\
    @matter Site.imports fileContents = Ok (data, content Site.post_a) /\
    @markdownToHtml Site.imports (content Site.post_a)
    = Ok (contentHtml Site.post_a).
Proof.
  apply (@getPostFromSlug_fields Site.imports
           (Site.two_posts ["a.md"; "b.md"]%string) "a"%string Site.post_a).
  vm_compute. reflexivity.
Defined.

(** ** Further properties of the code *)

Lemma getSlugFromFilename_collision f1 f2 :
  getSlugFromFilename f1 = getSlugFromFilename f2 ->
  f1 = f2 \/ f1 = f2 +:+ ".md" \/ f2 = f1 +:+ ".md".
Proof.
  unfold getSlugFromFilename. intros Heq.
  destruct (endsWith f1 ".md") eqn:E1; destruct (endsWith f2 ".md") eqn:E2.
  - apply endsWith_split in E1 as [s1 ->]. apply endsWith_split in E2 as [s2 ->].
    rewrite !replace_md_at_end_append in Heq. left. by subst.
  - apply endsWith_split in E1 as [s1 ->].
    rewrite replace_md_at_end_append, replace_md_at_end_no_match in Heq by done.
    right; left. by subst.
  - apply endsWith_split in E2 as [s2 ->].
    rewrite replace_md_at_end_append, replace_md_at_end_no_match in Heq by done.
    right; right. by subst.
  - rewrite !replace_md_at_end_no_match in Heq by done. by left.
Qed.

Lemma slugs_distinct (filenames : list string) :
  NoDup filenames ->
  Forall (fun f => endsWith f ".md" = true) filenames ->
  NoDup (map getSlugFromFilename filenames).
Proof.
  intros Hnodup Hmd. apply NoDup_fmap_2_strong; [|exact Hnodup].
  intros f1 f2 Hin1 Hin2 Heq.
  rewrite Forall_forall in Hmd.
  pose proof (Hmd _ Hin1) as E1. pose proof (Hmd _ Hin2) as E2.
  apply endsWith_split in E1 as [s1 ->]. apply endsWith_split in E2 as [s2 ->].
  unfold getSlugFromFilename in Heq.
  rewrite !replace_md_at_end_append in Heq. by subst.
Qed.

(** X1.  Two filenames get the same slug only when they are equal or one
    is the other followed by [.md]; so a listing without repeated names
    whose entries all end in [.md] gives [getAllSlugs] pairwise distinct
    slugs. *)
Theorem slugs_collide_only_by_extension `{Imports} :
  (forall f1 f2,
      getSlugFromFilename f1 = getSlugFromFilename f2 ->
      f1 = f2 \/ f1 = f2 +:+ ".md" \/ f2 = f1 +:+ ".md") /\
  (forall (fs : gmap string Entry) filenames slugs,
      readdirSync fs postsDirectory = Ok filenames ->
      NoDup filenames ->
      Forall (fun f => endsWith f ".md" = true) filenames ->
      getAllSlugs fs = Ok slugs ->
      NoDup slugs).
Proof.
  split; [exact getSlugFromFilename_collision|].
  intros fs filenames slugs Hdir Hnodup Hmd Hslugs.
  unfold getAllSlugs in Hslugs. rewrite Hdir in Hslugs. injection Hslugs as <-.
  by apply slugs_distinct.
Qed.

Lemma slugs_collide_only_by_extension_witness :
  ("a" = "a.md" \/ "a" = "a.md" +:+ ".md" \/ "a.md" = "a" +:+ ".md")%string
  /\ NoDup ["b"; "a"]%string.
Proof.
  destruct (@slugs_collide_only_by_extension Site.imports) as [Hcollide Hdistinct].
  split.
  - apply Hcollide. reflexivity.
  - apply (Hdistinct (Site.two_posts ["b.md"; "a.md"]%string)
             ["b.md"; "a.md"]%string).
    + vm_compute. reflexivity.
    + apply NoDup_cons. split; [|apply NoDup_singleton].
      intros Hin. apply list_elem_of_In in Hin. simpl in Hin.
      destruct Hin as [Hin|[]]. discriminate Hin.
    + repeat constructor.
    + vm_compute. reflexivity.
Defined.

Lemma length_substring_0 n s :
  (n <= String.length s)%nat -> String.length (String.substring 0 n s) = n.
Proof.
  revert s; induction n as [|n IH]; intros s Hn.
  - by destruct s.
  - destruct s as [|c s]; simpl in *; [lia|]. rewrite IH; lia.
Qed.

Lemma length_isoString t : (24 <= String.length (isoString t))%nat.
Proof.
  unfold isoString, isoYear. rewrite !length_append, !length_digits.
  destruct (_ && _); [|destruct (_ <? _)];
    rewrite ?length_append, ?length_digits; simpl; lia.
Qed.

Lemma isYMD_not_digit c s : isDigit c = false -> isYMD (String c s) = false.
Proof.
  intros Hc. unfold isYMD. cbn [list_ascii_of_string].
  destruct (list_ascii_of_string s) as [|? [|? [|? [|? [|? [|? [|? [|? [|? [|? ?]]]]]]]]]];
    try reflexivity.
  by rewrite Hc.
Qed.

Lemma isoString_out_of_range t :
  ~ 0 <= YearFromTime t <= 9999 ->
  exists c rest, isoString t = String c rest /\ isDigit c = false.
Proof.
  intros Hy. unfold isoString, isoYear.
  destruct (Z.leb_spec 0 (YearFromTime t)); cbn [andb].
  - destruct (Z.leb_spec (YearFromTime t) 9999); [lia|].
    destruct (Z.ltb_spec (YearFromTime t) 0); [lia|].
    rewrite !append_cons. by eexists _, _.
  - destruct (Z.ltb_spec (YearFromTime t) 0); [|lia].
    rewrite !append_cons. by eexists _, _.
Qed.

(** X2.  When the [date] of the front matter is a Date object, the
    record that [getPostFromSlug] returns carries the time value of that
    Date, which is then a valid one; its friendly date has ten characters,
    and it has the form [YYYY-MM-DD] exactly when the year of the Date lies
    between 0000 and 9999. *)
Theorem friendlyDate_shape `{Imports} (fs : gmap string Entry)
    (slug0 fileContents body : string) (data : gmap string Value)
    (d : option Z) (p : Post) :
  readFileSync fs (getFilepathFromSlug slug0) = Ok fileContents ->
  matter fileContents = Ok (data, body) ->
  prop data "date" = DateObj d ->
  getPostFromSlug fs slug0 = Ok p ->
  d = Some (date p) /\
  String.length (friendlyDate p) = 10%nat /\
  (isYMD (friendlyDate p) = true <-> 0 <= YearFromTime (date p) <= 9999).
Proof.
  intros Hread Hmatter Hdate Hp.
  apply getPostFromSlug_Ok in Hp
    as (? & ? & ? & tv & ? & Hread' & Hmatter' & Hdate' & _ & ->).
  rewrite Hread in Hread'. injection Hread' as <-.
  rewrite Hmatter in Hmatter'. injection Hmatter' as <- <-.
  rewrite Hdate in Hdate'. injection Hdate' as ->.
  cbn [friendlyDate date]. split; [done|]. split.
  - apply length_substring_0. pose proof (length_isoString tv). lia.
  - split.
    + intros Hymd.
      destruct (decide (0 <= YearFromTime tv <= 9999)) as [|Hout]; [done|].
      destruct (isoString_out_of_range tv Hout) as (c & rest & Hiso & Hc).
      rewrite Hiso in Hymd. unfold substring_from_0 in Hymd.
      cbn [String.substring] in Hymd.
      rewrite isYMD_not_digit in Hymd by done. discriminate.
    + intros Hy. pose proof (getFriendlyDate_in_range tv Hy) as Hf.
      unfold getFriendlyDate, toISOString in Hf. cbn [mbind Result_bind] in Hf.
      injection Hf as ->. apply isYMD_ymd.
Qed.

Lemma friendlyDate_shape_witness :
  Some 1704153600000 = Some (date Site.post_a) /\
  String.length (friendlyDate Site.post_a) = 10%nat /\
  (isYMD (friendlyDate Site.post_a) = true
   <-> 0 <= YearFromTime (date Site.post_a) <= 9999).
Proof.
  eapply (@friendlyDate_shape Site.imports
            (Site.two_posts ["a.md"; "b.md"]%string) "a"%string).
  - vm_compute. reflexivity.
  - vm_compute. reflexivity.
  - vm_compute. reflexivity.
  - vm_compute. reflexivity.
Defined.

(** X3.  For a post whose date is the calendar date year-month-day, as
    [Date.UTC] makes it for a year between 100 and 9999, the friendly date
    shows that year, that month and that day. *)
Theorem friendlyDate_of_calendar_date `{Imports} (fs : gmap string Entry)
    (slug0 : string) (p : Post) (year month day : Z) :
  getPostFromSlug fs slug0 = Ok p ->
  date p = UTC year month day ->
  100 <= year <= 9999 ->
  0 <= month <= 11 ->
  1 <= day <= DaysInMonth year month ->
  friendlyDate p
  = digits 4 year +:+ "-" +:+ digits 2 (month + 1) +:+ "-" +:+ digits 2 day.
Proof.
  intros Hp Hdate Hy Hm Hd.
  apply getPostFromSlug_Ok in Hp as (? & ? & ? & tv & ? & _ & _ & _ & _ & ->).
  cbn [friendlyDate date] in *. subst tv.
  pose proof (getFriendlyDate_UTC year month day Hy Hm Hd) as Hf.
  unfold getFriendlyDate, toISOString in Hf. cbn [mbind Result_bind] in Hf.
  by injection Hf.
Qed.

Lemma friendlyDate_of_calendar_date_witness :
  friendlyDate Site.post_a = "2024-01-02"%string.
Proof.
  apply (@friendlyDate_of_calendar_date Site.imports
           (Site.two_posts ["a.md"; "b.md"]%string) "a"%string Site.post_a
           2024 0 2).
  - vm_compute. reflexivity.
  - vm_compute. reflexivity.
  - lia.
  - lia.
  - vm_compute. split; discriminate.
Defined.

Lemma append_inj_length a1 a2 b1 b2 :
  String.length a1 = String.length a2 ->
  a1 +:+ b1 = a2 +:+ b2 -> a1 = a2 /\ b1 = b2.
Proof.
  revert a2; induction a1 as [|c a1 IH]; intros [|c2 a2] Hlen Heq;
    try discriminate Hlen.
  - by rewrite !append_nil_l in Heq.
  - rewrite !append_cons in Heq. injection Heq as -> Heq.
    destruct (IH a2) as [-> ->]; [by injection Hlen | done | done].
Qed.

Lemma digit_inj n m : digit n = digit m -> n mod 10 = m mod 10.
Proof.
  unfold digit. intros Heq. apply (f_equal nat_of_ascii) in Heq.
  pose proof (Z.mod_pos_bound n 10). pose proof (Z.mod_pos_bound m 10).
  rewrite !nat_ascii_embedding in Heq by lia. lia.
Qed.

Lemma digits_inj w n m :
  0 <= n < 10 ^ Z.of_nat w -> 0 <= m < 10 ^ Z.of_nat w ->
  digits w n = digits w m -> n = m.
Proof.
  revert n m; induction w as [|w IH]; intros n m Hn Hm Heq.
  - simpl in *. lia.
  - rewrite !digits_S in Heq.
    apply append_inj_length in Heq as [Hhigh Hlow];
      [|by rewrite !length_digits].
    injection Hlow as Hlow. apply digit_inj in Hlow.
    rewrite Nat2Z.inj_succ, Z.pow_succ_r in Hn, Hm by lia.
    assert (n / 10 = m / 10) as Hq.
    { apply IH; [| |exact Hhigh]; split;
        try (apply Z.div_pos; lia); apply Z.div_lt_upper_bound; lia. }
    rewrite (Z.div_mod n 10), (Z.div_mod m 10) by lia. lia.
Qed.

(** The calendar date of a time value, put back into [MakeDay], gives the
    day of the time value. *)
Lemma MakeDay_of_time t :
  MakeDay (YearFromTime t) (MonthFromTime t) (DateFromTime t) = Day t.
Proof.
  pose proof (MonthFromTime_bounds t) as Hm.
  pose proof (DayWithinYear_bounds t) as Hd.
  unfold MakeDay.
  assert (MonthFromTime t / 12 = 0 /\ MonthFromTime t mod 12 = MonthFromTime t)
    as [-> ->] by euclid.
  rewrite Z.add_0_r.
  unfold DateFromTime. fold (InLeapYear t).
  unfold DayWithinYear in *.
  generalize dependent (MonthFromTime t). intros month Hm.
  each_month month; lia.
Qed.

Lemma ymd_of_day t1 t2 : Day t1 = Day t2 -> ymd t1 = ymd t2.
Proof.
  intros Hday.
  assert (YearFromTime t1 = YearFromTime t2) as Hy
    by (unfold YearFromTime; by rewrite Hday).
  assert (DayWithinYear t1 = DayWithinYear t2) as Hw
    by (unfold DayWithinYear; by rewrite Hday, Hy).
  assert (InLeapYear t1 = InLeapYear t2) as Hl
    by (unfold InLeapYear; by rewrite Hy).
  assert (MonthFromTime t1 = MonthFromTime t2) as Hm
    by (unfold MonthFromTime; by rewrite Hw, Hl).
  assert (DateFromTime t1 = DateFromTime t2) as Hd
    by (unfold DateFromTime; by rewrite Hw, Hl, Hm).
  unfold ymd. by rewrite Hy, Hm, Hd.
Qed.

Lemma ymd_inj t1 t2 :
  0 <= YearFromTime t1 <= 9999 -> 0 <= YearFromTime t2 <= 9999 ->
  ymd t1 = ymd t2 -> Day t1 = Day t2.
Proof.
  intros Hy1 Hy2 Heq. unfold ymd in Heq.
  pose proof (MonthFromTime_bounds t1). pose proof (MonthFromTime_bounds t2).
  pose proof (DateFromTime_bounds t1). pose proof (DateFromTime_bounds t2).
  apply append_inj_length in Heq as [Hy Heq]; [|by rewrite !length_digits].
  apply (append_inj_length "-" "-") in Heq as [_ Heq]; [|done].
  apply append_inj_length in Heq as [Hm Heq]; [|by rewrite !length_digits].
  apply (append_inj_length "-" "-") in Heq as [_ Hd]; [|done].
  apply digits_inj in Hy; [|simpl; lia..].
  apply digits_inj in Hm; [|simpl; lia..].
  apply digits_inj in Hd; [|simpl; lia..].
  rewrite <- (MakeDay_of_time t1), <- (MakeDay_of_time t2).
  rewrite Hy, Hd. by replace (MonthFromTime t1) with (MonthFromTime t2) by lia.
Qed.

(** X4.  Two records with four-digit years have the same friendly date
    exactly when their dates fall on the same UTC day: the friendly date
    drops the time of the day and nothing else. *)
Theorem friendlyDate_same_day `{Imports} (fs1 fs2 : gmap string Entry)
    (slug1 slug2 : string) (p1 p2 : Post) :
  getPostFromSlug fs1 slug1 = Ok p1 ->
  getPostFromSlug fs2 slug2 = Ok p2 ->
  0 <= YearFromTime (date p1) <= 9999 ->
  0 <= YearFromTime (date p2) <= 9999 ->
  (friendlyDate p1 = friendlyDate p2 <-> Day (date p1) = Day (date p2)).
Proof.
  intros H1 H2 Hy1 Hy2.
  destruct (friendlyDate_in_range fs1 slug1 p1 H1 Hy1) as [-> _].
  destruct (friendlyDate_in_range fs2 slug2 p2 H2 Hy2) as [-> _].
  split; [by apply ymd_inj | apply ymd_of_day].
Qed.

Section Distinct.
Context {A : Type} (key : A -> Z).

Lemma filter_at_most_one (l : list A) (k : Z) :
  NoDup (key <$> l) -> (length (filter (fun x => key x = k) l) <= 1)%nat.
Proof.
  induction l as [|x l IH]; intros Hnd; [simpl; lia|].
  rewrite fmap_cons in Hnd. apply NoDup_cons in Hnd as [Hx Hnd].
  rewrite filter_cons. destruct (decide (key x = k)) as [<-|]; [|by apply IH].
  assert (filter (fun y => key y = key x) l = []) as ->; [|simpl; lia].
  clear IH Hnd. induction l as [|y l IH]; [done|].
  rewrite fmap_cons in Hx. apply not_elem_of_cons in Hx as [Hne Hx].
  rewrite filter_cons_False by done. by apply IH.
Qed.

(** When the keys are pairwise distinct, every rearrangement keeps the
    ties in place: there are none. *)
Lemma keeps_ties_distinct (l l' : list A) :
  Permutation l l' -> NoDup (key <$> l) -> keeps_ties key l l'.
Proof.
  intros Hp Hnd k.
  assert (NoDup (key <$> l')) as Hnd' by by rewrite <- Hp.
  pose proof (filter_at_most_one l k Hnd) as H1.
  pose proof (filter_at_most_one l' k Hnd') as H2.
  assert (Permutation (filter (fun x => key x = k) l)
                      (filter (fun x => key x = k) l')) as Hf by by rewrite Hp.
  destruct (filter (fun x => key x = k) l) as [|x [|? ?]];
    destruct (filter (fun x => key x = k) l') as [|y [|? ?]];
    simpl in *; try lia.
  - done.
  - by apply Permutation_nil_cons in Hf.
  - by apply Permutation_sym, Permutation_nil_cons in Hf.
  - by apply Permutation_singleton_l in Hf.
Qed.
End Distinct.

(** X5.  The order in which the directory is listed does not matter as
    long as the dates differ: for two file systems that list the same
    entries in different orders and give the same posts for them, when
    [getAllPosts] returns a list with pairwise distinct dates for the one,
    it returns the same list for the other. *)
Theorem getAllPosts_listing_order `{Imports} (fs1 fs2 : gmap string Entry)
    (listing1 listing2 : list string) (posts : list Post) :
  readdirSync fs1 postsDirectory = Ok listing1 ->
  readdirSync fs2 postsDirectory = Ok listing2 ->
  Permutation listing1 listing2 ->
  (forall f, f ∈ listing1 ->
             getPostFromFilename fs2 f = getPostFromFilename fs1 f) ->
  getAllPosts fs1 = Ok posts ->
  NoDup (date <$> posts) ->
  getAllPosts fs2 = Ok posts.
Proof.
  intros Hdir1 Hdir2 Hperm Hsame Hposts Hdistinct.
  apply getAllPosts_Ok in Hposts as (l1 & enumerated1 & Hdir1' & Hall1 & ->).
  rewrite Hdir1 in Hdir1'. injection Hdir1' as <-.
  destruct (Permutation_Forall2 Hperm Hall1) as (enumerated2 & Hperm2 & Hall2).
  apply getAllPosts_Ok. exists listing2, enumerated2. split; [done|]. split.
  - apply Forall2_same_length_lookup_2; [by eapply Forall2_length|].
    intros i f p Hf Hp. rewrite Hsame.
    + exact (Forall2_lookup_lr _ _ _ _ _ _ Hall2 Hf Hp).
    + rewrite Hperm. by eapply list_elem_of_lookup_2.
  - destruct (sort_comparePosts enumerated1) as [Hasc [Hp1 _]].
    symmetry. apply (sort_unique comparePosts (fun p => - date p));
      [apply comparePosts_key | exact Hasc |].
    assert (Permutation enumerated2 (V8.sort comparePosts enumerated1)) as Hp
      by by rewrite <- Hperm2.
    split; [exact Hp|].
    apply keeps_ties_distinct; [exact Hp|].
    rewrite Hp.
    change (fun p : Post => - date p) with (Z.opp ∘ date).
    rewrite list_fmap_compose.
    apply NoDup_fmap_2; [intros x y; lia | exact Hdistinct].
Qed.

Lemma friendlyDate_same_day_witness :
  friendlyDate Site.post_x = friendlyDate Site.post_y
  <-> Day (date Site.post_x) = Day (date Site.post_y).
Proof.
  apply (@friendlyDate_same_day Site.imports Site.tied_posts Site.tied_posts
           "x"%string "y"%string).
  - vm_compute. reflexivity.
  - vm_compute. reflexivity.
  - vm_compute. split; discriminate.
  - vm_compute. split; discriminate.
Defined.

Lemma getAllPosts_listing_order_witness :
  @getAllPosts Site.imports (Site.two_posts ["b.md"; "a.md"]%string)
  = Ok [Site.post_a; Site.post_b].
Proof.
  apply (@getAllPosts_listing_order Site.imports
           (Site.two_posts ["a.md"; "b.md"]%string)
           (Site.two_posts ["b.md"; "a.md"]%string)
           ["a.md"; "b.md"]%string ["b.md"; "a.md"]%string).
  - vm_compute. reflexivity.
  - vm_compute. reflexivity.
  - apply perm_swap.
  - intros f Hf. apply list_elem_of_In in Hf. simpl in Hf.
    destruct Hf as [<- | [<- | []]]; vm_compute; reflexivity.
  - vm_compute. reflexivity.
  - apply NoDup_cons. split; [|apply NoDup_singleton].
    intros Hin. apply list_elem_of_In in Hin. simpl in Hin.
    destruct Hin as [Hin | []]. discriminate Hin.
Defined.

(** X6.  Which failure of [getPostFromSlug] comes first.  A failed read
    of the file is the failure of the call.  After a successful read, a
    failure of [matter] is the failure of the call.  After both, a [date]
    that is absent, null, a boolean, a number, a string or a YAML sequence
    or mapping makes the call fail with a [TypeError], and an invalid Date
    with a [RangeError], whatever the rendering of the body would give;
    and with a valid Date the call fails exactly when the rendering of the
    body fails, and with that error. *)
Theorem getPostFromSlug_failures `{Imports} (fs : gmap string Entry)
    (slug0 : string) :
  (forall e,
      readFileSync fs (getFilepathFromSlug slug0) = Throw e ->
      getPostFromSlug fs slug0 = Throw e) /\
  (forall fileContents,
      readFileSync fs (getFilepathFromSlug slug0) = Ok fileContents ->
      (forall e,
          matter fileContents = Throw e ->
          getPostFromSlug fs slug0 = Throw e) /\
      (forall data body,
          matter fileContents = Ok (data, body) ->
          (prop data "date" = Undefined \/ prop data "date" = Null \/
           (exists b, prop data "date" = Boolean b) \/
           (exists n, prop data "date" = Number n) \/
           (exists s, prop data "date" = Str s) \/
           prop data "date" = Object ->
           getPostFromSlug fs slug0 = Throw TypeError) /\
          (prop data "date" = DateObj None ->
           getPostFromSlug fs slug0 = Throw RangeError) /\
          (forall tv e,
              prop data "date" = DateObj (Some tv) ->
              getPostFromSlug fs slug0 = Throw e
              <-> markdownToHtml body = Throw e))).
Proof.
  unfold getPostFromSlug. split.
  { intros e ->. reflexivity. }
  intros fileContents ->. cbn [mbind Result_bind]. split.
  { intros e ->. reflexivity. }
  intros data body ->. cbn [mbind Result_bind]. split; [|split].
  - intros [-> | [-> | [[b ->] | [[n ->] | [[s ->] | ->]]]]]; reflexivity.
  - intros ->. reflexivity.
  - intros tv e ->. cbn.
    destruct (markdownToHtml body); cbn; split; by intros [= ->].
Qed.

Lemma getPostFromSlug_failures_witness :
  @getPostFromSlug Site.imports Site.undated "undated" = Throw TypeError.
Proof.
  destruct (@getPostFromSlug_failures Site.imports Site.undated "undated")
    as [_ Hread].
  edestruct Hread as [_ Hmatter]; [vm_compute; reflexivity|].
  edestruct Hmatter as [Hdate _]; [vm_compute; reflexivity|].
  apply Hdate. left. vm_compute. reflexivity.
Defined.

Section PageFacts.
Context `{Imports}.
Implicit Types (fs : gmap string Entry).

Lemma fetch_all_Ok fs (listing : list string) :
  Forall (fun f => is_Ok (getPostFromFilename fs f) = true) listing ->
  exists enumerated,
    Forall2 (fun f p => getPostFromFilename fs f = Ok p) listing enumerated.
Proof.
  induction 1 as [|f listing Hf _ [enumerated IH]].
  - exists []. constructor.
  - destruct (getPostFromFilename fs f) as [p|] eqn:Hp; [|discriminate Hf].
    exists (p :: enumerated). by constructor.
Qed.

Lemma generateStaticParams_Ok fs listing :
  readdirSync fs postsDirectory = Ok listing ->
  PostPage.generateStaticParams fs
  = Ok (map (fun f => {| PostPage.slug := getSlugFromFilename f |}) listing).
Proof.
  intros Hdir. unfold PostPage.generateStaticParams, getAllSlugs.
  rewrite Hdir. cbn [mbind Result_bind]. by rewrite map_map.
Qed.

Lemma PostPage_is_Ok fs params :
  is_Ok (PostPage.Page fs params)
  = is_Ok (getPostFromSlug fs (PostPage.slug params)).
Proof.
  unfold PostPage.Page. by destruct (getPostFromSlug fs (PostPage.slug params)).
Qed.

Lemma hrefs_items posts :
  List.flat_map Observe.hrefs (map HomePage.item posts)
  = map (fun p => Observe.post_href (slug p)) posts.
Proof. induction posts as [|p posts IH]; [done|]. simpl. by rewrite IH. Qed.

Lemma keys_items posts :
  List.flat_map Observe.keys (map HomePage.item posts) = map slug posts.
Proof. induction posts as [|p posts IH]; [done|]. simpl. by rewrite IH. Qed.

Lemma HomePage_Ok fs page :
  HomePage.Page fs = Ok page ->
  exists posts,
    getAllPosts fs = Ok posts /\
    Observe.hrefs page = map (fun p => Observe.post_href (slug p)) posts /\
    Observe.keys page = map slug posts.
Proof.
  unfold HomePage.Page. intros Hpage.
  apply bind_Ok in Hpage as (posts & Hposts & [= <-]).
  exists posts. split; [done|].
  cbn [Observe.hrefs Observe.keys List.flat_map app].
  by rewrite !app_nil_r, hrefs_items, keys_items.
Qed.
End PageFacts.

(** X7.  [generateStaticParams] yields one parameter for every entry of
    the directory, and the home page builds exactly when the page of every
    one of these parameters builds. *)
Theorem home_page_builds_iff_post_pages_build `{Imports}
    (fs : gmap string Entry) (listing : list string) :
  readdirSync fs postsDirectory = Ok listing ->
  exists params,
    PostPage.generateStaticParams fs = Ok params /\
    length params = length listing /\
    (is_Ok (HomePage.Page fs) = true <->
     Forall (fun q => is_Ok (PostPage.Page fs q) = true) params).
Proof.
  intros Hdir. eexists. split; [by apply generateStaticParams_Ok|].
  split; [by rewrite length_map|].
  rewrite Forall_map.
  split.
  - intros Hhome. unfold HomePage.Page in Hhome.
    destruct (getAllPosts fs) as [posts|] eqn:Hposts; [|discriminate Hhome].
    apply getAllPosts_Ok in Hposts as (l & enumerated & Hdir' & Hall & _).
    rewrite Hdir in Hdir'. injection Hdir' as <-.
    apply Forall_forall. intros f Hf. simpl.
    apply list_elem_of_lookup in Hf as [i Hi].
    destruct (Forall2_lookup_l _ _ _ _ _ Hall Hi) as (p & _ & Hp).
    rewrite PostPage_is_Ok. simpl.
    unfold getPostFromFilename in Hp. by rewrite Hp.
  - intros Hpages.
    destruct (fetch_all_Ok fs listing) as [enumerated Hall].
    { eapply Forall_impl; [exact Hpages|]. intros f Hf. simpl in Hf.
      by rewrite PostPage_is_Ok in Hf. }
    assert (getAllPosts fs = Ok (V8.sort comparePosts enumerated)) as Hposts.
    { apply getAllPosts_Ok. by exists listing, enumerated. }
    unfold HomePage.Page. by rewrite Hposts.
Qed.

Lemma home_page_builds_iff_post_pages_build_witness :
  exists params,
    @PostPage.generateStaticParams Site.imports Site.undated = Ok params /\
    length params = 3%nat /\
    (is_Ok (@HomePage.Page Site.imports Site.undated) = true <->
     Forall (fun q => is_Ok (@PostPage.Page Site.imports Site.undated q) = true)
       params).
Proof.
  apply (@home_page_builds_iff_post_pages_build Site.imports Site.undated
           ["a.md"; "undated.md"; "b.md"]%string).
  vm_compute. reflexivity.
Defined.

(** X8.  The links of the home page: in the order of the page they are
    [posts/slug] for the posts of [getAllPosts], newest first, the keys of
    the items being the slugs; and they are, up to order, the pages that
    [generateStaticParams] asks for, so that every link has its page and
    every page its link. *)
Theorem home_page_links `{Imports} (fs : gmap string Entry) (page : Node) :
  HomePage.Page fs = Ok page ->
  exists posts params,
    getAllPosts fs = Ok posts /\
    date_descending posts /\
    Observe.hrefs page = map (fun p => Observe.post_href (slug p)) posts /\
    Observe.keys page = map slug posts /\
    PostPage.generateStaticParams fs = Ok params /\
    Permutation (Observe.hrefs page)
      (map (fun q => Observe.post_href (PostPage.slug q)) params).
Proof.
  intros Hpage.
  destruct (HomePage_Ok fs page Hpage) as (posts & Hposts & Hhrefs & Hkeys).
  pose proof Hposts as Hposts'.
  apply getAllPosts_Ok in Hposts' as (listing & enumerated & Hdir & Hall & ->).
  destruct (sort_comparePosts enumerated) as [Hasc [Hperm _]].
  eexists _, _. split; [exact Hposts|].
  split; [by apply ascending_date_descending|].
  split; [exact Hhrefs|]. split; [exact Hkeys|].
  split; [by apply generateStaticParams_Ok|].
  rewrite Hhrefs, map_map. simpl. rewrite <- Hperm.
  clear -Hall. induction Hall as [|f p listing enumerated Hp _ IH]; [done|].
  simpl. rewrite IH. apply Permutation_cons; [|done].
  unfold getPostFromFilename in Hp.
  apply getPostFromSlug_Ok in Hp as (? & ? & ? & ? & ? & _ & _ & _ & _ & ->).
  reflexivity.
Qed.

Lemma home_page_links_witness :
  exists posts params,
    @getAllPosts Site.imports Site.tied_posts = Ok posts /\
    date_descending posts /\
    Observe.hrefs SitePages.tied_home
    = map (fun p => Observe.post_href (slug p)) posts /\
    Observe.keys SitePages.tied_home = map slug posts /\
    @PostPage.generateStaticParams Site.imports Site.tied_posts = Ok params /\
    Permutation (Observe.hrefs SitePages.tied_home)
      (map (fun q => Observe.post_href (PostPage.slug q)) params).
Proof.
  apply (@home_page_links Site.imports Site.tied_posts SitePages.tied_home).
  vm_compute. reflexivity.
Defined.

Example tied_home_links :
  Observe.hrefs SitePages.tied_home
  = ["posts/new"; "posts/x"; "posts/y"]%string.
Proof. reflexivity. Qed.

(** X9.  The page behind a link of the home page shows the post of the
    link: for every post that [getAllPosts] returns, the page for its slug
    builds and is the article of that very record, and its metadata
    carries the title of that record. *)
Theorem linked_page_shows_linked_post `{Imports} (fs : gmap string Entry)
    (posts : list Post) :
  getAllPosts fs = Ok posts ->
  Forall (fun p =>
            PostPage.Page fs {| PostPage.slug := slug p |}
            = Ok (PostPage.article p) /\
            PostPage.generateMetadata fs {| PostPage.slug := slug p |}
            = Ok {| PostPage.title := title p |}) posts.
Proof.
  intros Hposts.
  apply getAllPosts_Ok in Hposts as (listing & enumerated & _ & Hall & ->).
  destruct (sort_comparePosts enumerated) as [_ [Hperm _]].
  rewrite <- Hperm. clear Hperm.
  induction Hall as [|f p listing enumerated Hp _ IH]; constructor; [|exact IH].
  unfold getPostFromFilename in Hp.
  assert (slug p = getSlugFromFilename f) as Hslug.
  { pose proof Hp as Hp'.
    apply getPostFromSlug_Ok in Hp' as (? & ? & ? & ? & ? & _ & _ & _ & _ & ->).
    reflexivity. }
  unfold PostPage.Page, PostPage.generateMetadata. simpl.
  rewrite Hslug, Hp. done.
Qed.

Lemma linked_page_shows_linked_post_witness :
  Forall (fun p =>
            @PostPage.Page Site.imports Site.tied_posts
              {| PostPage.slug := slug p |}
            = Ok (PostPage.article p) /\
            @PostPage.generateMetadata Site.imports Site.tied_posts
              {| PostPage.slug := slug p |}
            = Ok {| PostPage.title := title p |})
    [Site.post_new; Site.post_x; Site.post_y].
Proof.
  apply (@linked_page_shows_linked_post Site.imports Site.tied_posts).
  vm_compute. reflexivity.
Defined.

(** X10.  When the posts directory cannot be listed, [getAllSlugs],
    [getAllPosts], [generateStaticParams] and the home page all fail with
    the error of the listing: none of them takes it for an empty site. *)
Theorem unreadable_directory_fails_everything `{Imports}
    (fs : gmap string Entry) (e : Exception) :
  readdirSync fs postsDirectory = Throw e ->
  getAllSlugs fs = Throw e /\
  getAllPosts fs = Throw e /\
  PostPage.generateStaticParams fs = Throw e /\
  HomePage.Page fs = Throw e.
Proof.
  intros Hdir.
  unfold HomePage.Page, PostPage.generateStaticParams, getAllPosts, getAllSlugs.
  by rewrite Hdir.
Qed.

Lemma unreadable_directory_fails_everything_witness :
  @getAllSlugs Site.imports ∅ = Throw ENOENT /\
  @getAllPosts Site.imports ∅ = Throw ENOENT /\
  @PostPage.generateStaticParams Site.imports ∅ = Throw ENOENT /\
  @HomePage.Page Site.imports ∅ = Throw ENOENT.
Proof.
  apply (@unreadable_directory_fails_everything Site.imports).
  vm_compute. reflexivity.
Defined.

(** X11.  The file that is read for a directory entry: the entry itself
    when its name ends in [.md], and otherwise the entry's name followed
    by [.md]; when an entry does not end in [.md] and nothing is found
    under that longer name, [getAllPosts] fails. *)
Theorem file_read_for_entry `{Imports} :
  (forall f,
      endsWith f ".md" = true ->
      getFilepathFromSlug (getSlugFromFilename f) = Node.join postsDirectory f) /\
  (forall f,
      endsWith f ".md" = false ->
      getFilepathFromSlug (getSlugFromFilename f)
      = Node.join postsDirectory (f +:+ ".md")) /\
  (forall (fs : gmap string Entry) listing f,
      readdirSync fs postsDirectory = Ok listing ->
      f ∈ listing ->
      endsWith f ".md" = false ->
      fs !! Node.join postsDirectory (f +:+ ".md") = None ->
      exists e, getAllPosts fs = Throw e).
Proof.
  assert (forall f, endsWith f ".md" = false ->
                    getFilepathFromSlug (getSlugFromFilename f)
                    = Node.join postsDirectory (f +:+ ".md")) as Hother.
  { intros f Hf. unfold getFilepathFromSlug, getFilenameFromSlug,
      getSlugFromFilename. by rewrite replace_md_at_end_no_match. }
  split; [|split; [exact Hother|]].
  - intros f Hf. apply endsWith_split in Hf as [s ->].
    unfold getFilepathFromSlug, getFilenameFromSlug, getSlugFromFilename.
    by rewrite replace_md_at_end_append.
  - intros fs listing f Hdir Hin Hf Hnone.
    destruct (getAllPosts fs) as [posts|e] eqn:Hposts; [|by exists e].
    apply getAllPosts_Ok in Hposts as (l & enumerated & Hdir' & Hall & _).
    rewrite Hdir in Hdir'. injection Hdir' as <-.
    apply list_elem_of_lookup in Hin as [i Hi].
    destruct (Forall2_lookup_l _ _ _ _ _ Hall Hi) as (p & _ & Hp).
    unfold getPostFromFilename, getPostFromSlug, readFileSync in Hp.
    rewrite (Hother f Hf), Hnone in Hp. discriminate Hp.
Qed.

Lemma file_read_for_entry_witness :
  @getFilepathFromSlug Site.imports (getSlugFromFilename "a.md")
  = "/site/_posts/a.md"%string
  /\ @getFilepathFromSlug Site.imports (getSlugFromFilename "notes.txt")
     = "/site/_posts/notes.txt.md"%string
  /\ exists e, @getAllPosts Site.imports Site.with_notes = Throw e.
Proof.
  destruct (@file_read_for_entry Site.imports) as (Hmd & Hother & Hfail).
  split; [|split].
  - apply (Hmd "a.md"%string). reflexivity.
  - apply (Hother "notes.txt"%string). reflexivity.
  - apply (Hfail Site.with_notes ["a.md"; "notes.txt"]%string "notes.txt"%string).
    + vm_compute. reflexivity.
    + apply list_elem_of_In. right. left. reflexivity.
    + reflexivity.
    + vm_compute. reflexivity.
Defined.

(** X12.  For a listing without repeated names whose entries all end in
    [.md], the keys of the items of the home page are pairwise distinct,
    and so are its links. *)
Theorem home_page_keys_unique `{Imports} (fs : gmap string Entry)
    (listing : list string) (page : Node) :
  readdirSync fs postsDirectory = Ok listing ->
  NoDup listing ->
  Forall (fun f => endsWith f ".md" = true) listing ->
  HomePage.Page fs = Ok page ->
  NoDup (Observe.keys page) /\ NoDup (Observe.hrefs page).
Proof.
  intros Hdir Hnodup Hmd Hpage.
  destruct (HomePage_Ok fs page Hpage) as (posts & Hposts & Hhrefs & Hkeys).
  apply getAllPosts_Ok in Hposts as (l & enumerated & Hdir' & Hall & ->).
  rewrite Hdir in Hdir'. injection Hdir' as <-.
  destruct (sort_comparePosts enumerated) as [_ [Hperm _]].
  assert (map slug enumerated = map getSlugFromFilename listing) as Hslugs.
  { clear -Hall. induction Hall as [|f p listing enumerated Hp _ IH]; [done|].
    simpl. rewrite IH. f_equal. unfold getPostFromFilename in Hp.
    apply getPostFromSlug_Ok in Hp as (? & ? & ? & ? & ? & _ & _ & _ & _ & ->).
    reflexivity. }
  assert (NoDup (map slug (V8.sort comparePosts enumerated))) as Hkeys'.
  { rewrite <- Hperm, Hslugs. by apply slugs_distinct. }
  split; [by rewrite Hkeys|].
  rewrite Hhrefs.
  change (fun p : Post => Observe.post_href (slug p))
    with (Observe.post_href ∘ slug).
  rewrite (list_fmap_compose slug Observe.post_href).
  apply NoDup_fmap_2; [|exact Hkeys'].
  intros s1 s2 Heq. unfold Observe.post_href in Heq.
  by apply (append_inj_length "posts/" "posts/") in Heq as [_ ->].
Qed.

Lemma home_page_keys_unique_witness :
  NoDup (Observe.keys SitePages.tied_home)
  /\ NoDup (Observe.hrefs SitePages.tied_home).
Proof.
  apply (@home_page_keys_unique Site.imports Site.tied_posts
           ["x.md"; "new.md"; "y.md"]%string).
  - vm_compute. reflexivity.
  - repeat (apply NoDup_cons; split;
            [intros Hin; apply list_elem_of_In in Hin; simpl in Hin;
             repeat destruct Hin as [Hin | Hin]; try discriminate Hin; done|]).
    apply NoDup_nil. done.
  - repeat constructor.
  - vm_compute. reflexivity.
Defined.
